(** * AIfES activation layers: Leaky ReLU and Sigmoid

    A shallow embedding of [basic/base/ailayer/ailayer_leaky_relu.{h,c}] and
    [basic/base/ailayer/ailayer_sigmoid.c].

    The C code works on a graph of layer structs that point at each other and
    on tensors whose shape arrays and payloads are shared by pointer.  The
    embedding therefore keeps an explicit store: layer structs live in an
    object table indexed by address, shape arrays and storage blocks live in a
    memory indexed by address, and every function of the C files is a
    transformer of that store which fails ([None]) where the C code would
    dereference a pointer to nothing. *)

From Stdlib Require Import ZArith QArith Reals Lra Lia.
From stdpp Require Import base option gmap list fin_maps.

Set Default Proof Using "Type".

(** ** Pointers *)

(** Addresses are natural numbers; [NULL] is address 0. *)
Abbreviation ptr := N (only parsing).
Definition NULL : ptr := 0%N.

(** [const aicore_layertype_t *]: the two layer types of these files are the
    addresses of the constants [ailayer_sigmoid_type_s] and
    [ailayer_leaky_relu_type_s]; any other layer type is some other address. *)
Inductive layertype_ptr :=
| layertype_at (p : ptr)
| ailayer_sigmoid_type
| ailayer_leaky_relu_type.

(** Function pointers stored in the callback slots of [ailayer_t].  The
    constant [0] the initializers store is [fn_null]. *)
Inductive layer_fn :=
| fn_null
| fn_at (p : ptr)
| fn_ailayer_sigmoid_forward
| fn_ailayer_sigmoid_backward
| fn_ailayer_sigmoid_calc_result_shape
| fn_ailayer_leaky_relu_forward
| fn_ailayer_leaky_relu_backward
| fn_ailayer_leaky_relu_calc_result_shape.

(** ** Tensors and the generic layer struct *)

(** [aitensor_t], with the five members the C files name. *)
Record aitensor_t := {
  dtype : ptr;          (* const aimath_dtype_t *dtype *)
  dim : Z;              (* number of dimensions *)
  shape : ptr;          (* pointer to the shape array *)
  tensor_params : ptr;  (* void *tensor_params *)
  data : ptr            (* void *data *)
}.

(** [ailayer_t], with the members the C files read or write. *)
Record ailayer_t := {
  layer_type : layertype_ptr;
  layer_configuration : ptr;
  input_layer : ptr;
  output_layer : ptr;
  result : aitensor_t;
  deltas : aitensor_t;
  forward : layer_fn;
  backward : layer_fn;
  calc_result_shape : layer_fn;
  sizeof_paramem : layer_fn;
  set_paramem : layer_fn;
  sizeof_trainmem : layer_fn;
  set_trainmem : layer_fn;
  trainable_params_count : Z
}.

(** Field assignments [t.f = v] on a tensor. *)
Definition set_dtype (v : ptr) (t : aitensor_t) : aitensor_t :=
  {| dtype := v; dim := dim t; shape := shape t;
     tensor_params := tensor_params t; data := data t |}.
Definition set_dim (v : Z) (t : aitensor_t) : aitensor_t :=
  {| dtype := dtype t; dim := v; shape := shape t;
     tensor_params := tensor_params t; data := data t |}.
Definition set_shape (v : ptr) (t : aitensor_t) : aitensor_t :=
  {| dtype := dtype t; dim := dim t; shape := v;
     tensor_params := tensor_params t; data := data t |}.

(** Field assignments [b.f = v] on a layer base. *)
Definition set_layer_type (v : layertype_ptr) (b : ailayer_t) : ailayer_t :=
  {| layer_type := v; layer_configuration := layer_configuration b;
     input_layer := input_layer b; output_layer := output_layer b;
     result := result b; deltas := deltas b;
     forward := forward b; backward := backward b;
     calc_result_shape := calc_result_shape b;
     sizeof_paramem := sizeof_paramem b; set_paramem := set_paramem b;
     sizeof_trainmem := sizeof_trainmem b; set_trainmem := set_trainmem b;
     trainable_params_count := trainable_params_count b |}.
Definition set_layer_configuration (v : ptr) (b : ailayer_t) : ailayer_t :=
  {| layer_type := layer_type b; layer_configuration := v;
     input_layer := input_layer b; output_layer := output_layer b;
     result := result b; deltas := deltas b;
     forward := forward b; backward := backward b;
     calc_result_shape := calc_result_shape b;
     sizeof_paramem := sizeof_paramem b; set_paramem := set_paramem b;
     sizeof_trainmem := sizeof_trainmem b; set_trainmem := set_trainmem b;
     trainable_params_count := trainable_params_count b |}.
Definition set_input_layer (v : ptr) (b : ailayer_t) : ailayer_t :=
  {| layer_type := layer_type b; layer_configuration := layer_configuration b;
     input_layer := v; output_layer := output_layer b;
     result := result b; deltas := deltas b;
     forward := forward b; backward := backward b;
     calc_result_shape := calc_result_shape b;
     sizeof_paramem := sizeof_paramem b; set_paramem := set_paramem b;
     sizeof_trainmem := sizeof_trainmem b; set_trainmem := set_trainmem b;
     trainable_params_count := trainable_params_count b |}.
Definition set_output_layer (v : ptr) (b : ailayer_t) : ailayer_t :=
  {| layer_type := layer_type b; layer_configuration := layer_configuration b;
     input_layer := input_layer b; output_layer := v;
     result := result b; deltas := deltas b;
     forward := forward b; backward := backward b;
     calc_result_shape := calc_result_shape b;
     sizeof_paramem := sizeof_paramem b; set_paramem := set_paramem b;
     sizeof_trainmem := sizeof_trainmem b; set_trainmem := set_trainmem b;
     trainable_params_count := trainable_params_count b |}.
Definition set_result (v : aitensor_t) (b : ailayer_t) : ailayer_t :=
  {| layer_type := layer_type b; layer_configuration := layer_configuration b;
     input_layer := input_layer b; output_layer := output_layer b;
     result := v; deltas := deltas b;
     forward := forward b; backward := backward b;
     calc_result_shape := calc_result_shape b;
     sizeof_paramem := sizeof_paramem b; set_paramem := set_paramem b;
     sizeof_trainmem := sizeof_trainmem b; set_trainmem := set_trainmem b;
     trainable_params_count := trainable_params_count b |}.
Definition set_deltas (v : aitensor_t) (b : ailayer_t) : ailayer_t :=
  {| layer_type := layer_type b; layer_configuration := layer_configuration b;
     input_layer := input_layer b; output_layer := output_layer b;
     result := result b; deltas := v;
     forward := forward b; backward := backward b;
     calc_result_shape := calc_result_shape b;
     sizeof_paramem := sizeof_paramem b; set_paramem := set_paramem b;
     sizeof_trainmem := sizeof_trainmem b; set_trainmem := set_trainmem b;
     trainable_params_count := trainable_params_count b |}.
Definition set_forward (v : layer_fn) (b : ailayer_t) : ailayer_t :=
  {| layer_type := layer_type b; layer_configuration := layer_configuration b;
     input_layer := input_layer b; output_layer := output_layer b;
     result := result b; deltas := deltas b;
     forward := v; backward := backward b;
     calc_result_shape := calc_result_shape b;
     sizeof_paramem := sizeof_paramem b; set_paramem := set_paramem b;
     sizeof_trainmem := sizeof_trainmem b; set_trainmem := set_trainmem b;
     trainable_params_count := trainable_params_count b |}.
Definition set_backward (v : layer_fn) (b : ailayer_t) : ailayer_t :=
  {| layer_type := layer_type b; layer_configuration := layer_configuration b;
     input_layer := input_layer b; output_layer := output_layer b;
     result := result b; deltas := deltas b;
     forward := forward b; backward := v;
     calc_result_shape := calc_result_shape b;
     sizeof_paramem := sizeof_paramem b; set_paramem := set_paramem b;
     sizeof_trainmem := sizeof_trainmem b; set_trainmem := set_trainmem b;
     trainable_params_count := trainable_params_count b |}.
Definition set_calc_result_shape (v : layer_fn) (b : ailayer_t) : ailayer_t :=
  {| layer_type := layer_type b; layer_configuration := layer_configuration b;
     input_layer := input_layer b; output_layer := output_layer b;
     result := result b; deltas := deltas b;
     forward := forward b; backward := backward b;
     calc_result_shape := v;
     sizeof_paramem := sizeof_paramem b; set_paramem := set_paramem b;
     sizeof_trainmem := sizeof_trainmem b; set_trainmem := set_trainmem b;
     trainable_params_count := trainable_params_count b |}.
Definition set_sizeof_paramem (v : layer_fn) (b : ailayer_t) : ailayer_t :=
  {| layer_type := layer_type b; layer_configuration := layer_configuration b;
     input_layer := input_layer b; output_layer := output_layer b;
     result := result b; deltas := deltas b;
     forward := forward b; backward := backward b;
     calc_result_shape := calc_result_shape b;
     sizeof_paramem := v; set_paramem := set_paramem b;
     sizeof_trainmem := sizeof_trainmem b; set_trainmem := set_trainmem b;
     trainable_params_count := trainable_params_count b |}.
Definition set_set_paramem (v : layer_fn) (b : ailayer_t) : ailayer_t :=
  {| layer_type := layer_type b; layer_configuration := layer_configuration b;
     input_layer := input_layer b; output_layer := output_layer b;
     result := result b; deltas := deltas b;
     forward := forward b; backward := backward b;
     calc_result_shape := calc_result_shape b;
     sizeof_paramem := sizeof_paramem b; set_paramem := v;
     sizeof_trainmem := sizeof_trainmem b; set_trainmem := set_trainmem b;
     trainable_params_count := trainable_params_count b |}.
Definition set_sizeof_trainmem (v : layer_fn) (b : ailayer_t) : ailayer_t :=
  {| layer_type := layer_type b; layer_configuration := layer_configuration b;
     input_layer := input_layer b; output_layer := output_layer b;
     result := result b; deltas := deltas b;
     forward := forward b; backward := backward b;
     calc_result_shape := calc_result_shape b;
     sizeof_paramem := sizeof_paramem b; set_paramem := set_paramem b;
     sizeof_trainmem := v; set_trainmem := set_trainmem b;
     trainable_params_count := trainable_params_count b |}.
Definition set_set_trainmem (v : layer_fn) (b : ailayer_t) : ailayer_t :=
  {| layer_type := layer_type b; layer_configuration := layer_configuration b;
     input_layer := input_layer b; output_layer := output_layer b;
     result := result b; deltas := deltas b;
     forward := forward b; backward := backward b;
     calc_result_shape := calc_result_shape b;
     sizeof_paramem := sizeof_paramem b; set_paramem := set_paramem b;
     sizeof_trainmem := sizeof_trainmem b; set_trainmem := v;
     trainable_params_count := trainable_params_count b |}.
Definition set_trainable_params_count (v : Z) (b : ailayer_t) : ailayer_t :=
  {| layer_type := layer_type b; layer_configuration := layer_configuration b;
     input_layer := input_layer b; output_layer := output_layer b;
     result := result b; deltas := deltas b;
     forward := forward b; backward := backward b;
     calc_result_shape := calc_result_shape b;
     sizeof_paramem := sizeof_paramem b; set_paramem := set_paramem b;
     sizeof_trainmem := sizeof_trainmem b; set_trainmem := set_trainmem b;
     trainable_params_count := v |}.

(** ** Memory *)

Section Model.

(** The element type of tensor payloads.  The layer code is independent of it:
    all arithmetic is done by the kernels the layer struct points to. *)
Context {E : Type}.

(** A storage block: its size in bytes and the elements it holds. *)
Record block := { blk_bytes : N; blk_elems : list E }.

(** Memory outside the layer structs: shape arrays and storage blocks (tensor
    payloads, tensor parameters, scalars such as [alpha]). *)
Record memory := {
  shapes : gmap N (list Z);
  blocks : gmap N block
}.

(** The elements behind a data pointer, and their replacement.  Nothing is
    read through a pointer to no block and nothing is written through it:
    an access to storage that is not bound, which is undefined in C, has no
    effect here.  The statements on the contents a pass leaves behind
    therefore carry the liveness of the storage the pass touches as
    hypotheses ([tensor_live] below). *)
Definition load_elems (m : memory) (p : ptr) : list E :=
  default [] (blk_elems <$> blocks m !! p).

Definition store_elems (p : ptr) (vs : list E) (m : memory) : memory :=
  {| shapes := shapes m;
     blocks := alter (λ b, {| blk_bytes := blk_bytes b; blk_elems := vs |})
                     p (blocks m) |}.

(** Automatic storage: an array declared in a function body gets an address
    that is neither [NULL] nor the address of a live block, and its contents
    are indeterminate ([junk]); it is gone when the function returns. *)
Definition fresh_block (m : memory) : ptr := fresh ({[NULL]} ∪ dom (blocks m)).

Definition alloc_block (p : ptr) (bytes : N) (junk : list E) (m : memory)
  : memory :=
  {| shapes := shapes m;
     blocks := <[p := {| blk_bytes := bytes; blk_elems := junk |}]> (blocks m) |}.

Definition release_block (p : ptr) (m : memory) : memory :=
  {| shapes := shapes m; blocks := delete p (blocks m) |}.

(** ** Kernels

    The math functions a layer struct points to.  A kernel receives pointers
    to tensor descriptors and works on the memory they point into; the layer
    functions below build every descriptor pointer before the first kernel
    call and never write a descriptor in between, so a kernel is modelled as
    receiving the descriptors themselves.  A kernel is a total function on
    memory: what a C kernel does when the storage it is handed is not bound
    is outside the model. *)
Definition kernel_unary : Type := aitensor_t → aitensor_t → memory → memory.
Definition kernel_scalar : Type :=
  aitensor_t → ptr → aitensor_t → memory → memory.
Definition kernel_binary : Type :=
  aitensor_t → aitensor_t → aitensor_t → memory → memory.

(** [struct ailayer_leaky_relu] (ailayer_leaky_relu.h).  A kernel slot that
    was never set is [None]. *)
Record ailayer_leaky_relu_t := {
  lrelu_base : ailayer_t;
  lrelu_dtype : ptr;
  alpha : ptr;
  leaky_relu : option kernel_scalar;
  d_leaky_relu : option kernel_scalar;
  lrelu_multiply : option kernel_binary
}.

(** [struct ailayer_sigmoid]: the members ailayer_sigmoid.c uses. *)
Record ailayer_sigmoid_t := {
  sigm_base : ailayer_t;
  sigm_dtype : ptr;
  sigmoid : option kernel_unary;
  d_sigmoid : option kernel_unary;
  sigm_multiply : option kernel_binary
}.

(** What lives at a layer address: a Leaky ReLU struct, a Sigmoid struct, or
    some other layer of which only the base is known. *)
Inductive object :=
| obj_layer (b : ailayer_t)
| obj_leaky_relu (l : ailayer_leaky_relu_t)
| obj_sigmoid (l : ailayer_sigmoid_t).

Definition base_of (o : object) : ailayer_t :=
  match o with
  | obj_layer b => b
  | obj_leaky_relu l => lrelu_base l
  | obj_sigmoid l => sigm_base l
  end.

Definition map_base (f : ailayer_t → ailayer_t) (o : object) : object :=
  match o with
  | obj_layer b => obj_layer (f b)
  | obj_leaky_relu l =>
      obj_leaky_relu
        {| lrelu_base := f (lrelu_base l); lrelu_dtype := lrelu_dtype l;
           alpha := alpha l; leaky_relu := leaky_relu l;
           d_leaky_relu := d_leaky_relu l;
           lrelu_multiply := lrelu_multiply l |}
  | obj_sigmoid l =>
      obj_sigmoid
        {| sigm_base := f (sigm_base l); sigm_dtype := sigm_dtype l;
           sigmoid := sigmoid l; d_sigmoid := d_sigmoid l;
           sigm_multiply := sigm_multiply l |}
  end.

(** The casts of a configuration pointer to a pointer to a concrete layer
    struct: they yield a struct only where one of that kind lives. *)
Definition as_leaky_relu (o : object) : option ailayer_leaky_relu_t :=
  match o with obj_leaky_relu l => Some l | _ => None end.
Definition as_sigmoid (o : object) : option ailayer_sigmoid_t :=
  match o with obj_sigmoid l => Some l | _ => None end.

Record state := { objs : gmap N object; mem : memory }.

Definition set_mem (m : memory) (st : state) : state :=
  {| objs := objs st; mem := m |}.

(** Reading and writing the base of the layer at address [p]. *)
Definition load_base (p : ptr) (st : state) : option ailayer_t :=
  base_of <$> objs st !! p.

Definition store_base (p : ptr) (f : ailayer_t → ailayer_t) (st : state)
  : option state :=
  o ← objs st !! p;
  Some {| objs := <[p := map_base f o]> (objs st); mem := mem st |}.

End Model.

Arguments block : clear implicits.
Arguments memory : clear implicits.
Arguments kernel_unary : clear implicits.
Arguments kernel_scalar : clear implicits.
Arguments kernel_binary : clear implicits.
Arguments ailayer_leaky_relu_t : clear implicits.
Arguments ailayer_sigmoid_t : clear implicits.
Arguments object : clear implicits.
Arguments state : clear implicits.

(** ** Byte counts

    The byte counts of a tensor are values of type [uint32_t]: a number is
    read as its residue modulo 2^32, and a sum of two of them wraps around
    at [UINT32_MAX]. *)
Definition UINT32_MAX : N := 4294967295%N.

Definition uint32 (n : N) : N := (n mod 4294967296)%N.

Definition uint32_add (a b : N) : N := uint32 (a + b).

(** ** The layer functions *)

Section Layers.

Context {E : Type}.

(** [aimath_sizeof_tensor_params] and [aimath_sizeof_tensor_data] are declared
    in basic/base/aimath/aimath_basic.h, which is not among these files: they
    are parameters here, each giving a byte count for a tensor from its
    descriptor (dtype, dimensionality) and the shape arrays.  Both return
    [uint32_t]: the layer code sees their values through [uint32]. *)
Variable aimath_sizeof_tensor_params : gmap N (list Z) → aitensor_t → N.
Variable aimath_sizeof_tensor_data : gmap N (list Z) → aitensor_t → N.

(** *** ailayer_leaky_relu.c *)

(** [ailayer_leaky_relu(layer, input_layer)], one store per assignment.  The
    returned pointer [&(layer->base)] is the address of the struct's first
    member, that is [layer]. *)
Definition ailayer_leaky_relu (layer input_layer : ptr) (st : state E)
  : option (ptr * state E) :=
  st ← store_base layer (set_layer_type ailayer_leaky_relu_type) st;
  st ← store_base layer (set_input_layer input_layer) st;
  st ← store_base input_layer (set_output_layer layer) st;
  st ← store_base layer (set_layer_configuration layer) st;
  l ← objs st !! layer ≫= as_leaky_relu;
  st ← store_base layer
         (λ b, set_result (set_dtype (lrelu_dtype l) (result b)) b) st;
  inl ← load_base input_layer st;
  st ← store_base layer
         (λ b, set_result (set_shape (shape (result inl)) (result b)) b) st;
  inl ← load_base input_layer st;
  st ← store_base layer
         (λ b, set_result (set_dim (dim (result inl)) (result b)) b) st;
  l ← objs st !! layer ≫= as_leaky_relu;
  st ← store_base layer
         (λ b, set_deltas (set_dtype (lrelu_dtype l) (deltas b)) b) st;
  st ← store_base layer (λ b, set_deltas (set_dim 2 (deltas b)) b) st;
  st ← store_base layer
         (λ b, set_deltas (set_shape (shape (result b)) (deltas b)) b) st;
  st ← store_base layer (set_forward fn_ailayer_leaky_relu_forward) st;
  st ← store_base layer (set_backward fn_ailayer_leaky_relu_backward) st;
  st ← store_base layer
         (set_calc_result_shape fn_ailayer_leaky_relu_calc_result_shape) st;
  st ← store_base layer (set_sizeof_paramem fn_null) st;
  st ← store_base layer (set_set_paramem fn_null) st;
  st ← store_base layer (set_sizeof_trainmem fn_null) st;
  st ← store_base layer (set_set_trainmem fn_null) st;
  st ← store_base layer (set_trainable_params_count 0) st;
  Some (layer, st).

(** [ailayer_leaky_relu_forward(self)]. *)
Definition ailayer_leaky_relu_forward (self : ptr) (st : state E)
  : option (state E) :=
  b ← load_base self st;
  layer ← objs st !! layer_configuration b ≫= as_leaky_relu;
  inl ← load_base (input_layer b) st;
  let x_in := result inl in
  let x_out := result b in
  k ← leaky_relu layer;
  Some (set_mem (k x_in (alpha layer) x_out (mem st)) st).

(** [ailayer_leaky_relu_backward(self)]. *)
Definition ailayer_leaky_relu_backward (self : ptr) (st : state E)
  : option (state E) :=
  b ← load_base self st;
  layer ← objs st !! layer_configuration b ≫= as_leaky_relu;
  let delta_in := deltas b in
  outl ← load_base (output_layer b) st;
  let delta_out := deltas outl in
  inl ← load_base (input_layer b) st;
  let x_in := result inl in
  kd ← d_leaky_relu layer;
  let m1 := kd x_in (alpha layer) delta_in (mem st) in
  km ← lrelu_multiply layer;
  let m2 := km delta_in delta_out delta_in m1 in
  Some (set_mem m2 st).

(** [ailayer_leaky_relu_calc_result_shape(self)]: the body is a comment and
    a [return]. *)
Definition ailayer_leaky_relu_calc_result_shape (self : ptr) (st : state E)
  : option (state E) :=
  Some st.

(** *** ailayer_sigmoid.c *)

(** [ailayer_sigmoid(layer, input_layer)]. *)
Definition ailayer_sigmoid (layer input_layer : ptr) (st : state E)
  : option (ptr * state E) :=
  st ← store_base layer (set_layer_type ailayer_sigmoid_type) st;
  st ← store_base layer (set_input_layer input_layer) st;
  st ← store_base input_layer (set_output_layer layer) st;
  st ← store_base layer (set_layer_configuration layer) st;
  l ← objs st !! layer ≫= as_sigmoid;
  st ← store_base layer
         (λ b, set_result (set_dtype (sigm_dtype l) (result b)) b) st;
  inl ← load_base input_layer st;
  st ← store_base layer
         (λ b, set_result (set_dim (dim (result inl)) (result b)) b) st;
  inl ← load_base input_layer st;
  st ← store_base layer
         (λ b, set_result (set_shape (shape (result inl)) (result b)) b) st;
  l ← objs st !! layer ≫= as_sigmoid;
  st ← store_base layer
         (λ b, set_deltas (set_dtype (sigm_dtype l) (deltas b)) b) st;
  st ← store_base layer (λ b, set_deltas (set_dim 2 (deltas b)) b) st;
  st ← store_base layer
         (λ b, set_deltas (set_shape (shape (result b)) (deltas b)) b) st;
  st ← store_base layer (set_forward fn_ailayer_sigmoid_forward) st;
  st ← store_base layer (set_backward fn_ailayer_sigmoid_backward) st;
  st ← store_base layer
         (set_calc_result_shape fn_ailayer_sigmoid_calc_result_shape) st;
  st ← store_base layer (set_sizeof_paramem fn_null) st;
  st ← store_base layer (set_set_paramem fn_null) st;
  st ← store_base layer (set_sizeof_trainmem fn_null) st;
  st ← store_base layer (set_set_trainmem fn_null) st;
  st ← store_base layer (set_trainable_params_count 0) st;
  Some (layer, st).

(** [ailayer_sigmoid_forward(self)]. *)
Definition ailayer_sigmoid_forward (self : ptr) (st : state E)
  : option (state E) :=
  b ← load_base self st;
  layer ← objs st !! layer_configuration b ≫= as_sigmoid;
  inl ← load_base (input_layer b) st;
  let x_in := result inl in
  let x_out := result b in
  k ← sigmoid layer;
  Some (set_mem (k x_in x_out (mem st)) st).

(** The automatic variables of [ailayer_sigmoid_backward]: the two arrays
    [temp_result_params] and [temp_result_data], sized from [x_in], and the
    descriptor [temp_result] that points at them.  [junk_params] and
    [junk_data] are the indeterminate initial contents of the arrays.
    The size expression of the first array,
    [aimath_sizeof_tensor_params(x_in) + 1], is a [uint32_t] sum: it is 0
    when the count is [UINT32_MAX].  Each array has as many bytes as its
    size expression says, also when that is 0.
    Returns the descriptor and the memory with both arrays live. *)
Definition sigmoid_backward_locals (junk_params junk_data : list E)
    (x_in : aitensor_t) (m : memory E) : aitensor_t * memory E :=
  let temp_result_params := fresh_block m in
  let m1 := alloc_block temp_result_params
              (uint32_add (uint32 (aimath_sizeof_tensor_params (shapes m) x_in))
                 1)
              junk_params m in
  let temp_result_data := fresh_block m1 in
  let m2 := alloc_block temp_result_data
              (uint32 (aimath_sizeof_tensor_data (shapes m1) x_in))
              junk_data m1 in
  ({| dim := 2; shape := shape x_in; data := temp_result_data;
      dtype := dtype x_in; tensor_params := temp_result_params |}, m2).

(** Leaving the function body ends the lifetime of both arrays. *)
Definition sigmoid_backward_return (temp_result : aitensor_t) (m : memory E)
  : memory E :=
  release_block (tensor_params temp_result)
    (release_block (data temp_result) m).

(** [ailayer_sigmoid_backward(self)]. *)
Definition ailayer_sigmoid_backward (junk_params junk_data : list E)
    (self : ptr) (st : state E) : option (state E) :=
  b ← load_base self st;
  layer ← objs st !! layer_configuration b ≫= as_sigmoid;
  let delta_in := deltas b in
  outl ← load_base (output_layer b) st;
  let delta_out := deltas outl in
  inl ← load_base (input_layer b) st;
  let x_in := result inl in
  let '(temp_result, m0) :=
    sigmoid_backward_locals junk_params junk_data x_in (mem st) in
  ks ← sigmoid layer;
  let m1 := ks x_in temp_result m0 in
  kd ← d_sigmoid layer;
  let m2 := kd temp_result temp_result m1 in
  km ← sigm_multiply layer;
  let m3 := km temp_result delta_out delta_in m2 in
  Some (set_mem (sigmoid_backward_return temp_result m3) st).

(** [ailayer_sigmoid_calc_result_shape(self)]: a comment and a [return]. *)
Definition ailayer_sigmoid_calc_result_shape (self : ptr) (st : state E)
  : option (state E) :=
  Some st.

(** *** Both layers at once *)

Inductive activation := LeakyReLU | Sigmoid.

Definition initializer (a : activation)
  : ptr → ptr → state E → option (ptr * state E) :=
  match a with
  | LeakyReLU => ailayer_leaky_relu
  | Sigmoid => ailayer_sigmoid
  end.

Definition layer_forward (a : activation) : ptr → state E → option (state E) :=
  match a with
  | LeakyReLU => ailayer_leaky_relu_forward
  | Sigmoid => ailayer_sigmoid_forward
  end.

Definition layer_backward (a : activation) (junk_params junk_data : list E)
  : ptr → state E → option (state E) :=
  match a with
  | LeakyReLU => ailayer_leaky_relu_backward
  | Sigmoid => ailayer_sigmoid_backward junk_params junk_data
  end.

Definition layer_calc_result_shape (a : activation)
  : ptr → state E → option (state E) :=
  match a with
  | LeakyReLU => ailayer_leaky_relu_calc_result_shape
  | Sigmoid => ailayer_sigmoid_calc_result_shape
  end.

(** The dtype an initializer reads from the struct it initializes
    ([layer->dtype]), and the values it stores in the callback slots. *)
Definition configured_dtype (o : object E) : option ptr :=
  match o with
  | obj_layer _ => None
  | obj_leaky_relu l => Some (lrelu_dtype l)
  | obj_sigmoid l => Some (sigm_dtype l)
  end.

Definition is_activation (a : activation) (o : object E) : Prop :=
  match a, o with
  | LeakyReLU, obj_leaky_relu _ => True
  | Sigmoid, obj_sigmoid _ => True
  | _, _ => False
  end.

Definition forward_fn (a : activation) : layer_fn :=
  match a with
  | LeakyReLU => fn_ailayer_leaky_relu_forward
  | Sigmoid => fn_ailayer_sigmoid_forward
  end.
Definition backward_fn (a : activation) : layer_fn :=
  match a with
  | LeakyReLU => fn_ailayer_leaky_relu_backward
  | Sigmoid => fn_ailayer_sigmoid_backward
  end.
Definition calc_result_shape_fn (a : activation) : layer_fn :=
  match a with
  | LeakyReLU => fn_ailayer_leaky_relu_calc_result_shape
  | Sigmoid => fn_ailayer_sigmoid_calc_result_shape
  end.
Definition layertype_of (a : activation) : layertype_ptr :=
  match a with
  | LeakyReLU => ailayer_leaky_relu_type
  | Sigmoid => ailayer_sigmoid_type
  end.

End Layers.


(** ** Repeated backward passes *)

Section Repeat.

Context {E : Type}.
Variable aimath_sizeof_tensor_params : gmap N (list Z) → aitensor_t → N.
Variable aimath_sizeof_tensor_data : gmap N (list Z) → aitensor_t → N.

(** [n] calls of [ailayer_sigmoid_backward(self)] in a row; call number [k]
    finds [junk k] in its two arrays. *)
Fixpoint sigmoid_backward_n (junk : nat → list E * list E) (n : nat)
    (self : ptr) (st : state E) : option (state E) :=
  match n with
  | O => Some st
  | S k =>
      st' ← sigmoid_backward_n junk k self st;
      ailayer_sigmoid_backward aimath_sizeof_tensor_params
        aimath_sizeof_tensor_data (junk k).1 (junk k).2 self st'
  end.

End Repeat.

(** ** Kernels *)

Section Kernels.

Context {E : Type}.

(** Modelled from the spec: the math kernels a layer points to are
    implemented per data type outside these files.  Section 2 of the
    specification calls them "named elementwise operations (activate,
    derivative, elementwise-multiply)", section 6 gives them the signature
    (input tensor, scalar/parameter, output tensor) with no return value.
    An elementwise kernel reads the payload of its input tensor (the
    elements of the block its [data] points at) and writes its image under a
    scalar function to the payload of its output tensor. *)
Definition elementwise (f : E → E) : kernel_unary E :=
  λ x res m, store_elems (data res) (f <$> load_elems m (data x)) m.

(** Modelled from the spec: an elementwise kernel with a scalar parameter
    passed by pointer, as [leaky_relu(x, alpha, result)] in
    ailayer_leaky_relu.h. *)
Definition elementwise_scalar (f : E → E → E) : kernel_scalar E :=
  λ x alpha res m,
    match load_elems m alpha with
    | a :: _ => store_elems (data res) (f a <$> load_elems m (data x)) m
    | [] => m
    end.

(** Modelled from the spec: the elementwise product ("result = a ∘ b" in
    ailayer_leaky_relu.h). *)
Definition elementwise_multiply (mul : E → E → E) : kernel_binary E :=
  λ a b res m,
    store_elems (data res)
      (zip_with mul (load_elems m (data a)) (load_elems m (data b))) m.

(** The contract of a kernel towards the rest of memory: it writes nothing
    but the storage of its output tensor (its payload, and its parameter
    block). *)
Definition writes_only (res : aitensor_t) (m m' : memory E) : Prop :=
  shapes m' = shapes m ∧
  ∀ q, q ≠ data res → q ≠ tensor_params res →
       blocks m' !! q = blocks m !! q.

Definition unary_frame (k : kernel_unary E) : Prop :=
  ∀ x res m, writes_only res m (k x res m).
Definition scalar_frame (k : kernel_scalar E) : Prop :=
  ∀ x a res m, writes_only res m (k x a res m).
Definition binary_frame (k : kernel_binary E) : Prop :=
  ∀ a b res m, writes_only res m (k a b res m).

Definition installed {K : Type} (P : K → Prop) (slot : option K) : Prop :=
  match slot with Some k => P k | None => True end.

(** Every kernel installed in the struct obeys the contract. *)
Definition kernels_frame (o : object E) : Prop :=
  match o with
  | obj_layer _ => True
  | obj_leaky_relu l =>
      installed scalar_frame (leaky_relu l) ∧
      installed scalar_frame (d_leaky_relu l) ∧
      installed binary_frame (lrelu_multiply l)
  | obj_sigmoid l =>
      installed unary_frame (sigmoid l) ∧
      installed unary_frame (d_sigmoid l) ∧
      installed binary_frame (sigm_multiply l)
  end.

(** The storage a tensor descriptor points at is live. *)
Definition tensor_live (m : memory E) (t : aitensor_t) : Prop :=
  is_Some (blocks m !! data t).

End Kernels.

(** *** Leaky ReLU over the rationals *)

(** Modelled from the spec: the Leaky ReLU kernel is documented in
    ailayer_leaky_relu.h (result_i = alpha * x_i if x_i < 0, x_i if
    x_i >= 0) and in section 4.2 of the specification; its implementation is
    not among these files. *)
Definition leaky_relu_scalar (alpha x : Q) : Q :=
  if Qlt_le_dec x 0 then alpha * x else x.

(** Modelled from the spec: the derivative kernel of ailayer_leaky_relu.h
    (result_i = alpha if x_i < 0, 1 if x_i >= 0). *)
Definition d_leaky_relu_scalar (alpha x : Q) : Q :=
  if Qlt_le_dec x 0 then alpha else 1.

Definition leaky_relu_kernel : kernel_scalar Q :=
  elementwise_scalar leaky_relu_scalar.
Definition d_leaky_relu_kernel : kernel_scalar Q :=
  elementwise_scalar d_leaky_relu_scalar.
Definition multiply_kernel : kernel_binary Q :=
  elementwise_multiply Qmult.

(** *** Sigmoid over the reals *)

(** Modelled from the spec: section 4.3, activate(x) = 1/(1+e^-x); the
    kernel itself is not among these files.  The model is over the real
    numbers: rounding of a machine number format is not part of it. *)
Definition sigmoid_scalar (x : R) : R := (1 / (1 + exp (- x)))%R.

(** Modelled from the spec: section 4.3, derivative(s) = s*(1-s), a function
    of the sigmoid output [s]. *)
Definition d_sigmoid_scalar (s : R) : R := (s * (1 - s))%R.

Definition sigmoid_kernel : kernel_unary R := elementwise sigmoid_scalar.
Definition d_sigmoid_kernel : kernel_unary R := elementwise d_sigmoid_scalar.
Definition multiply_kernel_R : kernel_binary R := elementwise_multiply Rmult.

(** ** Running a layer operation *)

Section Operations.

Context {E : Type}.
Variable aimath_sizeof_tensor_params : gmap N (list Z) → aitensor_t → N.
Variable aimath_sizeof_tensor_data : gmap N (list Z) → aitensor_t → N.

(** The three callbacks an initializer installs. *)
Inductive layer_op :=
| op_forward
| op_backward (junk_params junk_data : list E)
| op_calc_result_shape.

Definition run_op (a : activation) (op : layer_op) (self : ptr)
    (st : state E) : option (state E) :=
  match op with
  | op_forward => layer_forward a self st
  | op_backward jp jd =>
      layer_backward aimath_sizeof_tensor_params aimath_sizeof_tensor_data
        a jp jd self st
  | op_calc_result_shape => layer_calc_result_shape a self st
  end.

(** The tensor of the node an operation produces: the result for forward,
    the gradient slot for backward, none for shape inference. *)
Definition owned_tensor (op : layer_op) (b : ailayer_t) : option aitensor_t :=
  match op with
  | op_forward => Some (result b)
  | op_backward _ _ => Some (deltas b)
  | op_calc_result_shape => None
  end.

Definition kernels_installed (a : activation) (o : object E) : Prop :=
  match a, o with
  | LeakyReLU, obj_leaky_relu l =>
      is_Some (leaky_relu l) ∧ is_Some (d_leaky_relu l) ∧
      is_Some (lrelu_multiply l)
  | Sigmoid, obj_sigmoid l =>
      is_Some (sigmoid l) ∧ is_Some (d_sigmoid l) ∧
      is_Some (sigm_multiply l)
  | _, _ => False
  end.

(** A node of kind [a] at [self], wired between two existing layers, with
    all its kernels installed. *)
Definition node_ready (a : activation) (st : state E) (self : ptr) : Prop :=
  ∃ b cfg inl outl,
    load_base self st = Some b ∧
    objs st !! layer_configuration b = Some cfg ∧
    kernels_installed a cfg ∧
    load_base (input_layer b) st = Some inl ∧
    load_base (output_layer b) st = Some outl.

(** The contents of the gradient slot, and of the result, of the node at
    [self] in the state an operation returned. *)
Definition deltas_after (r : option (state E)) (self : ptr)
  : option (list E) :=
  st' ← r; b ← load_base self st';
  Some (load_elems (mem st') (data (deltas b))).

Definition result_after (r : option (state E)) (self : ptr)
  : option (list E) :=
  st' ← r; b ← load_base self st';
  Some (load_elems (mem st') (data (result b))).

(** Overwriting the contents of one block. *)
Definition overwrite (p : ptr) (vs : list E) (st : state E) : state E :=
  set_mem (store_elems p vs (mem st)) st.

End Operations.

Arguments layer_op : clear implicits.

(** The byte size of the block one pointer of the scratch descriptor (its
    [tensor_params] or its [data]) points at, in the memory the locals were
    entered into. *)
Definition scratch_bytes {E : Type} (field : aitensor_t → ptr)
    (r : aitensor_t * memory E) : option N :=
  blk_bytes <$> blocks r.2 !! field r.1.

(** ** The base an initializer leaves behind

    [init_base a d layer pred rin b] is the base of a struct whose base was
    [b] before, after all assignments of the initializer of [a]: [d] is the
    struct's own [dtype] member, [rin] the predecessor's result descriptor.
    The members the initializer does not assign ([output_layer], and the
    storage pointers of both tensors) keep their values. *)
Definition init_base (a : activation) (d layer pred : ptr) (rin : aitensor_t)
    (b : ailayer_t) : ailayer_t :=
  {| layer_type := layertype_of a; layer_configuration := layer;
     input_layer := pred; output_layer := output_layer b;
     result := {| dtype := d; dim := dim rin; shape := shape rin;
                  tensor_params := tensor_params (result b);
                  data := data (result b) |};
     deltas := {| dtype := d; dim := 2; shape := shape rin;
                  tensor_params := tensor_params (deltas b);
                  data := data (deltas b) |};
     forward := forward_fn a; backward := backward_fn a;
     calc_result_shape := calc_result_shape_fn a;
     sizeof_paramem := fn_null; set_paramem := fn_null;
     sizeof_trainmem := fn_null; set_trainmem := fn_null;
     trainable_params_count := 0 |}.

(** The dtype of the result tensor of the layer at [p] in the state an
    initializer call returned. *)
Definition result_dtype_after {E : Type} (r : option (ptr * state E))
    (p : ptr) : option ptr :=
  '(_, st') ← r; b ← load_base p st'; Some (dtype (result b)).

(** ** A three-node chain used to run the functions

    Node 1 is the predecessor, node 2 the activation layer, node 3 the
    successor.  All tensors share the shape array at address 20; the
    payloads are the blocks 10 (predecessor result), 11 (result of node 2),
    12 (deltas of node 2), 13 (deltas of node 3); block 14 holds [alpha].
    Elements take four bytes. *)

Definition tensor_at (dt : ptr) (d : Z) (sh dat : ptr) : aitensor_t :=
  {| dtype := dt; dim := d; shape := sh; tensor_params := NULL; data := dat |}.

(** A layer base nobody has initialized: null pointers and a leftover
    parameter count. *)
Definition blank_layer : ailayer_t :=
  {| layer_type := layertype_at NULL; layer_configuration := NULL;
     input_layer := NULL; output_layer := NULL;
     result := tensor_at NULL 0 NULL NULL;
     deltas := tensor_at NULL 0 NULL NULL;
     forward := fn_null; backward := fn_null; calc_result_shape := fn_null;
     sizeof_paramem := fn_null; set_paramem := fn_null;
     sizeof_trainmem := fn_null; set_trainmem := fn_null;
     trainable_params_count := 7 |}.

(** The predecessor: its result has dtype [dt] and dimensionality [d]. *)
Definition ex_pred (dt : ptr) (d : Z) : ailayer_t :=
  set_result (tensor_at dt d 20 10) blank_layer.

Definition ex_succ : ailayer_t :=
  set_input_layer 2 (set_deltas (tensor_at 8 2 20 13) blank_layer).

(** Node 2 as the initializers leave it, with its storage bound. *)
Definition ex_node (a : activation) : ailayer_t :=
  {| layer_type := layertype_of a; layer_configuration := 2;
     input_layer := 1; output_layer := 3;
     result := tensor_at 8 2 20 11;
     deltas := tensor_at 8 2 20 12;
     forward := forward_fn a; backward := backward_fn a;
     calc_result_shape := calc_result_shape_fn a;
     sizeof_paramem := fn_null; set_paramem := fn_null;
     sizeof_trainmem := fn_null; set_trainmem := fn_null;
     trainable_params_count := 0 |}.

Definition ex_leaky_relu (b : ailayer_t) : ailayer_leaky_relu_t Q :=
  {| lrelu_base := b; lrelu_dtype := 8; alpha := 14;
     leaky_relu := Some leaky_relu_kernel;
     d_leaky_relu := Some d_leaky_relu_kernel;
     lrelu_multiply := Some multiply_kernel |}.

Definition ex_sigmoid (b : ailayer_t) : ailayer_sigmoid_t R :=
  {| sigm_base := b; sigm_dtype := 8;
     sigmoid := Some sigmoid_kernel;
     d_sigmoid := Some d_sigmoid_kernel;
     sigm_multiply := Some multiply_kernel_R |}.

(** A sigmoid struct over the rationals; the scalar functions stand in for a
    kernel pair of some data type (run where exact values can be computed). *)
Definition ex_sigmoid_Q (b : ailayer_t) : ailayer_sigmoid_t Q :=
  {| sigm_base := b; sigm_dtype := 8;
     sigmoid := Some (elementwise (λ x : Q, (x + 1)%Q));
     d_sigmoid := Some (elementwise (λ s : Q, (s * (1 - s))%Q));
     sigm_multiply := Some multiply_kernel |}.

Definition ex_block {E : Type} (vs : list E) : block E :=
  {| blk_bytes := 4 * N.of_nat (length vs); blk_elems := vs |}.

Definition ex_memory {E : Type} (sh : list Z) (xs res ds gs al : list E)
  : memory E :=
  {| shapes := {[ 20%N := sh ]};
     blocks := {[ 10%N := ex_block xs; 11%N := ex_block res;
                  12%N := ex_block ds; 13%N := ex_block gs;
                  14%N := ex_block al ]} |}.

Definition ex_state {E : Type} (pred : ailayer_t) (node : object E)
    (m : memory E) : state E :=
  {| objs := {[ 1%N := obj_layer pred; 2%N := node;
                3%N := obj_layer ex_succ ]};
     mem := m |}.

(** Scenario A of the specification: x = [-2, 0, 3], g = [1, 1, 1],
    alpha = 0.1; the own slots hold leftovers. *)
Definition ex_leaky_state (ds gs : list Q) : state Q :=
  ex_state (set_output_layer 2 (ex_pred 8 2))
    (obj_leaky_relu (ex_leaky_relu (ex_node LeakyReLU)))
    (ex_memory [1; 3]%Z [-2; 0; 3]%Q [5; 5; 5]%Q ds gs [1 # 10]%Q).

(** Scenario B of the specification: x = [0], g = [1]. *)
Definition ex_sigmoid_state : state R :=
  ex_state (set_output_layer 2 (ex_pred 8 2))
    (obj_sigmoid (ex_sigmoid (ex_node Sigmoid)))
    (ex_memory [1; 1]%Z [0%R] [5%R] [5%R] [1%R] []).

Definition ex_sigmoid_state_Q (ds gs : list Q) : state Q :=
  ex_state (set_output_layer 2 (ex_pred 8 2))
    (obj_sigmoid (ex_sigmoid_Q (ex_node Sigmoid)))
    (ex_memory [1; 3]%Z [-2; 0; 3]%Q [5; 5; 5]%Q ds gs []).

(** Before initialization: node 2 has only its [dtype] (address 8) and its
    kernels set, and the predecessor's result has dtype address [dt] and
    dimensionality [d]. *)
Definition ex_raw_node (a : activation) : object Q :=
  match a with
  | LeakyReLU => obj_leaky_relu (ex_leaky_relu blank_layer)
  | Sigmoid => obj_sigmoid (ex_sigmoid_Q blank_layer)
  end.

Definition ex_uninit (a : activation) (dt : ptr) (d : Z) : state Q :=
  ex_state (ex_pred dt d) (ex_raw_node a)
    (ex_memory (replicate (Z.to_nat d - 1) 1%Z ++ [3%Z])
       [-2; 0; 3]%Q [] [] [] [1 # 10]%Q).

(** Byte counts for a data type of four-byte elements without tensor
    parameters: no parameter bytes, and four bytes for each element of the
    extent (the product of the first [dim] entries of the shape array). *)
Definition ex_sizeof_tensor_params : gmap N (list Z) → aitensor_t → N :=
  λ _ _, 0%N.
Definition ex_sizeof_tensor_data : gmap N (list Z) → aitensor_t → N :=
  λ sh t,
    Z.to_N (4 * foldr Z.mul 1%Z
                  (take (Z.to_nat (dim t)) (default [] (sh !! shape t)))).

(** ** Views used by the additional properties *)

Section Comparisons.

Context {E : Type}.

(** Two structs agree in everything but their base: the [dtype] member, the
    [alpha] pointer and the kernel slots. *)
Definition same_configuration (o o' : object E) : Prop :=
  match o, o' with
  | obj_layer _, obj_layer _ => True
  | obj_leaky_relu l, obj_leaky_relu l' =>
      lrelu_dtype l' = lrelu_dtype l ∧ alpha l' = alpha l ∧
      leaky_relu l' = leaky_relu l ∧ d_leaky_relu l' = d_leaky_relu l ∧
      lrelu_multiply l' = lrelu_multiply l
  | obj_sigmoid l, obj_sigmoid l' =>
      sigm_dtype l' = sigm_dtype l ∧ sigmoid l' = sigmoid l ∧
      d_sigmoid l' = d_sigmoid l ∧ sigm_multiply l' = sigm_multiply l
  | _, _ => False
  end.

(** Two descriptors point at the same storage. *)
Definition same_storage (t t' : aitensor_t) : Prop :=
  data t' = data t ∧ tensor_params t' = tensor_params t.

End Comparisons.

(** An uninitialized chain of three structs: the predecessor at 1, a Leaky
    ReLU struct at 2 and a Sigmoid struct at 3. *)
Definition ex_uninit_chain (d : Z) : state Q :=
  {| objs := {[ 1%N := obj_layer (ex_pred 9 d);
                2%N := ex_raw_node LeakyReLU;
                3%N := ex_raw_node Sigmoid ]};
     mem := ex_memory (replicate (Z.to_nat d - 1) 1%Z ++ [3%Z])
              [-2; 0; 3]%Q [] [] [] [1 # 10]%Q |}.

Section KernelViews.

Context {E : Type}.

(** Where a struct keeps the slope its kernels read, if it has one. *)
Definition slope_ptr (cfg : object E) : option ptr :=
  match cfg with
  | obj_leaky_relu l => Some (alpha l)
  | _ => None
  end.

(** The forward kernel of the struct applies [f] to every element: for a
    Sigmoid struct the activate kernel is the elementwise [f]; for a Leaky
    ReLU struct it is elementwise with a scalar parameter and [f] is that
    kernel at the slope found behind [alpha]. *)
Definition activates (m : memory E) (cfg : object E) (f : E → E) : Prop :=
  match cfg with
  | obj_layer _ => False
  | obj_leaky_relu l =>
      ∃ g slope rest,
        leaky_relu l = Some (elementwise_scalar g) ∧
        load_elems m (alpha l) = slope :: rest ∧
        f = g slope
  | obj_sigmoid l => sigmoid l = Some (elementwise f)
  end.

(** The backward kernels of the struct multiply, by [mul], the derivative
    [d] of every input element into the gradient: for a Sigmoid struct [d]
    is the derivative kernel after the activate kernel; for a Leaky ReLU
    struct it is the derivative kernel at the slope behind [alpha]. *)
Definition differentiates (m : memory E) (cfg : object E) (d : E → E)
    (mul : E → E → E) : Prop :=
  match cfg with
  | obj_layer _ => False
  | obj_leaky_relu l =>
      ∃ g slope rest,
        d_leaky_relu l = Some (elementwise_scalar g) ∧
        lrelu_multiply l = Some (elementwise_multiply mul) ∧
        load_elems m (alpha l) = slope :: rest ∧
        d = g slope
  | obj_sigmoid l =>
      ∃ fs fd,
        sigmoid l = Some (elementwise fs) ∧
        d_sigmoid l = Some (elementwise fd) ∧
        sigm_multiply l = Some (elementwise_multiply mul) ∧
        d = (λ x, fd (fs x))
  end.

(** The live blocks of a memory and the byte size of each. *)
Definition footprint (m : memory E) : gmap N N := blk_bytes <$> blocks m.

(** A kernel that neither creates, removes nor resizes a block. *)
Definition unary_keeps_footprint (k : kernel_unary E) : Prop :=
  ∀ x res m, footprint (k x res m) = footprint m.
Definition scalar_keeps_footprint (k : kernel_scalar E) : Prop :=
  ∀ x a res m, footprint (k x a res m) = footprint m.
Definition binary_keeps_footprint (k : kernel_binary E) : Prop :=
  ∀ a b res m, footprint (k a b res m) = footprint m.

Definition kernels_keep_footprint (o : object E) : Prop :=
  match o with
  | obj_layer _ => True
  | obj_leaky_relu l =>
      installed scalar_keeps_footprint (leaky_relu l) ∧
      installed scalar_keeps_footprint (d_leaky_relu l) ∧
      installed binary_keeps_footprint (lrelu_multiply l)
  | obj_sigmoid l =>
      installed unary_keeps_footprint (sigmoid l) ∧
      installed unary_keeps_footprint (d_sigmoid l) ∧
      installed binary_keeps_footprint (sigm_multiply l)
  end.

End KernelViews.

(** A wired chain of four nodes over the rationals: the predecessor at 1, a
    Leaky ReLU node at 2 (slope behind block 14), a Sigmoid node at 3 (with
    the stand-in kernels of [ex_sigmoid_Q]) and the successor at 4.  Blocks:
    10 the predecessor's result, 11 and 12 the result and gradient slot of
    node 2, 16 and 13 the result and gradient slot of node 3, 15 the
    successor's gradient slot. *)
Definition ex_chain_node (a : activation) (self inp out res dl : ptr)
  : ailayer_t :=
  {| layer_type := layertype_of a; layer_configuration := self;
     input_layer := inp; output_layer := out;
     result := tensor_at 8 2 20 res;
     deltas := tensor_at 8 2 20 dl;
     forward := forward_fn a; backward := backward_fn a;
     calc_result_shape := calc_result_shape_fn a;
     sizeof_paramem := fn_null; set_paramem := fn_null;
     sizeof_trainmem := fn_null; set_trainmem := fn_null;
     trainable_params_count := 0 |}.

Definition ex_chain_state (r2 d2 r3 d3 gs : list Q) : state Q :=
  {| objs :=
       {[ 1%N := obj_layer (set_output_layer 2 (ex_pred 8 2));
          2%N := obj_leaky_relu
                   (ex_leaky_relu (ex_chain_node LeakyReLU 2 1 3 11 12));
          3%N := obj_sigmoid
                   (ex_sigmoid_Q (ex_chain_node Sigmoid 3 2 4 16 13));
          4%N := obj_layer
                   (set_input_layer 3
                      (set_deltas (tensor_at 8 2 20 15) blank_layer)) ]};
     mem :=
       {| shapes := {[ 20%N := [1; 3]%Z ]};
          blocks := {[ 10%N := ex_block [-2; 0; 3]%Q;
                       11%N := ex_block r2; 12%N := ex_block d2;
                       13%N := ex_block d3; 14%N := ex_block [1 # 10]%Q;
                       15%N := ex_block gs; 16%N := ex_block r3 ]} |} |}.

(** The example chain of scenario A with the gradient slot of node 2 bound
    to the successor's storage (block 13). *)
Definition ex_leaky_state_aliased (gs : list Q) : state Q :=
  ex_state (set_output_layer 2 (ex_pred 8 2))
    (obj_leaky_relu
       (ex_leaky_relu (set_deltas (tensor_at 8 2 20 13) (ex_node LeakyReLU))))
    (ex_memory [1; 3]%Z [-2; 0; 3]%Q [5; 5; 5]%Q [] gs [1 # 10]%Q).

Section Sequences.

Context {E : Type}.
Variable aimath_sizeof_tensor_params : gmap N (list Z) → aitensor_t → N.
Variable aimath_sizeof_tensor_data : gmap N (list Z) → aitensor_t → N.

(** A sequence of operations on one node, each on the state the one before
    it returned. *)
Fixpoint run_ops (a : activation) (ops : list (layer_op E)) (self : ptr)
    (st : state E) : option (state E) :=
  match ops with
  | [] => Some st
  | op :: rest =>
      st' ← run_op aimath_sizeof_tensor_params aimath_sizeof_tensor_data
              a op self st;
      run_ops a rest self st'
  end.

End Sequences.

(** The uninitialized example chain with the storage of node 2 already
    bound: its result points at block 11, its gradient slot at block 12. *)
Definition ex_bound_node (a : activation) : object Q :=
  map_base
    (λ b, set_result (tensor_at NULL 0 NULL 11)
            (set_deltas (tensor_at NULL 0 NULL 12) b))
    (ex_raw_node a).

Definition ex_bound_uninit (a : activation) : state Q :=
  ex_state (ex_pred 8 2) (ex_bound_node a)
    (ex_memory [1; 3]%Z [-2; 0; 3]%Q [5; 5; 5]%Q [7; 7; 7]%Q [1; 1; 1]%Q
       [1 # 10]%Q).

(** The uninitialized chain of three structs with all storage bound before
    construction: a Leaky ReLU struct at 2 (result at block 11, gradient
    slot at block 12) and a Sigmoid struct at 3 whose gradient slot points
    at block 13, which holds [gs]. *)
Definition ex_bound_successor : object Q :=
  map_base (set_deltas (tensor_at NULL 0 NULL 13)) (ex_raw_node Sigmoid).

Definition ex_bound_chain (gs : list Q) : state Q :=
  {| objs := {[ 1%N := obj_layer (ex_pred 8 2);
                2%N := ex_bound_node LeakyReLU;
                3%N := ex_bound_successor ]};
     mem := ex_memory [1; 3]%Z [-2; 0; 3]%Q [5; 5; 5]%Q [7; 7; 7]%Q gs
              [1 # 10]%Q |}.

(** The uninitialized example chain with the storage of node 2 bound and
    its [output_layer] already set to node 3. *)
Definition ex_bound_linked (a : activation) : state Q :=
  ex_state (ex_pred 8 2) (map_base (set_output_layer 3) (ex_bound_node a))
    (ex_memory [1; 3]%Z [-2; 0; 3]%Q [5; 5; 5]%Q [7; 7; 7]%Q [1; 1; 1]%Q
       [1 # 10]%Q).

(** * Properties *)

(** ** The object table *)

Section Store.

Context {E : Type}.
Implicit Types (M : gmap N (object E)) (m : memory E) (o : object E).

Lemma store_base_here p f o M m :
  store_base p f {| objs := <[p := o]> M; mem := m |}
  = Some {| objs := <[p := map_base f o]> M; mem := m |}.
Proof.
  unfold store_base; cbn. rewrite lookup_insert_eq; cbn.
  by rewrite insert_insert_eq.
Qed.

Lemma store_base_next p q f o o' M m :
  p ≠ q →
  store_base q f {| objs := <[p := o]> (<[q := o']> M); mem := m |}
  = Some {| objs := <[p := o]> (<[q := map_base f o']> M); mem := m |}.
Proof.
  intros Hne. unfold store_base; cbn.
  rewrite lookup_insert_ne by done. rewrite lookup_insert_eq; cbn.
  do 2 f_equal. rewrite (insert_insert_ne _ q p) by done.
  by rewrite insert_insert_eq.
Qed.

Lemma load_base_next p q o o' M m :
  p ≠ q →
  load_base q {| objs := <[p := o]> (<[q := o']> M); mem := m |}
  = Some (base_of o').
Proof.
  intros. unfold load_base; cbn.
  rewrite lookup_insert_ne by done. by rewrite lookup_insert_eq.
Qed.

Lemma base_of_map_base f o : base_of (map_base f o) = f (base_of o).
Proof. by destruct o. Qed.

(** Reading the gradient slot after an operation that left the object table
    alone. *)
Lemma deltas_after_Some (r : option (state E)) st' (self : ptr) b st :
  r = Some st' → objs st' = objs st → load_base self st = Some b →
  deltas_after r self = Some (load_elems (mem st') (data (deltas b))).
Proof.
  intros -> Hobjs Hb. unfold deltas_after; cbn [mbind option_bind].
  unfold load_base in *. by rewrite Hobjs, Hb.
Qed.

End Store.

(** Symbolic execution of an initializer on a table whose cells at [layer]
    and [pred] are explicit. *)
Ltac init_eval layer pred :=
  repeat first
   [ rewrite store_base_here
   | rewrite (store_base_next layer pred) by done
   | rewrite (load_base_next layer pred) by done
   | rewrite lookup_insert_eq
   | progress cbn [mbind option_bind map_base as_sigmoid as_leaky_relu
                   objs mem
                   sigm_base sigm_dtype sigmoid d_sigmoid sigm_multiply
                   lrelu_base lrelu_dtype alpha leaky_relu d_leaky_relu
                   lrelu_multiply] ].

(** ** The initializers *)

Section Initializers.

Context {E : Type}.
Implicit Types (st : state E) (o : object E).

Lemma ailayer_sigmoid_cells (layer pred : ptr) (M : gmap N (object E)) m l o_in :
  layer ≠ pred →
  ailayer_sigmoid layer pred
    {| objs := <[layer := obj_sigmoid l]> (<[pred := o_in]> M); mem := m |} =
  Some (layer,
        {| objs :=
             <[layer := map_base (init_base Sigmoid (sigm_dtype l) layer pred
                                    (result (base_of o_in))) (obj_sigmoid l)]>
               (<[pred := map_base (set_output_layer layer) o_in]> M);
           mem := m |}).
Proof.
  intros Hne. unfold ailayer_sigmoid. init_eval layer pred.
  destruct l as [[] ? ? ? ?].
  destruct o_in as [[]|[[] ? ? ? ? ?]|[[] ? ? ? ?]]; reflexivity.
Qed.

Lemma ailayer_leaky_relu_cells (layer pred : ptr) (M : gmap N (object E)) m l
    o_in :
  layer ≠ pred →
  ailayer_leaky_relu layer pred
    {| objs := <[layer := obj_leaky_relu l]> (<[pred := o_in]> M);
       mem := m |} =
  Some (layer,
        {| objs :=
             <[layer := map_base (init_base LeakyReLU (lrelu_dtype l) layer
                                    pred (result (base_of o_in)))
                          (obj_leaky_relu l)]>
               (<[pred := map_base (set_output_layer layer) o_in]> M);
           mem := m |}).
Proof.
  intros Hne. unfold ailayer_leaky_relu. init_eval layer pred.
  destruct l as [[] ? ? ? ? ?].
  destruct o_in as [[]|[[] ? ? ? ? ?]|[[] ? ? ? ?]]; reflexivity.
Qed.

(** Either initializer, on any state in which [layer] is a struct of its
    kind and [pred] is another layer, succeeds and leaves exactly this
    state. *)
Lemma initializer_eq a (layer pred : ptr) st o o_in :
  layer ≠ pred →
  objs st !! layer = Some o →
  is_activation a o →
  objs st !! pred = Some o_in →
  ∃ d, configured_dtype o = Some d ∧
    initializer a layer pred st =
    Some (layer,
          {| objs :=
               <[layer := map_base (init_base a d layer pred
                                      (result (base_of o_in))) o]>
                 (<[pred := map_base (set_output_layer layer) o_in]> (objs st));
             mem := mem st |}).
Proof.
  intros Hne Hl Ha Hin. destruct st as [M m]; cbn [objs mem] in *.
  assert (HM : M = <[layer := o]> (<[pred := o_in]> M)).
  { rewrite (insert_id M pred) by done. by rewrite insert_id. }
  destruct a, o as [b|l|l]; try done; cbn [initializer configured_dtype].
  - exists (lrelu_dtype l); split; [done|].
    rewrite HM at 1. by rewrite ailayer_leaky_relu_cells.
  - exists (sigm_dtype l); split; [done|].
    rewrite HM at 1. by rewrite ailayer_sigmoid_cells.
Qed.

End Initializers.

Section InitializerClaims.

Context {E : Type}.
Implicit Types (st : state E) (o : object E).

(** C4 (as amended).  An initializer call (Leaky ReLU or Sigmoid) on a node
    [layer] and an already existing predecessor [pred] succeeds and returns
    [layer], the address of the node's base.  Afterwards the node's
    back-reference is [pred] and the predecessor's forward-reference is the
    node; the node's result tensor has the predecessor result's
    dimensionality and the very same shape pointer (no shape array is
    created: memory is unchanged), while its dtype is the node's own
    configured [dtype] member, not the predecessor's; the
    forward/backward/shape-inference callbacks are installed, the four
    parameter-memory callbacks are null and the trainable-parameter count
    is 0. *)
Theorem initializer_wires_node a (layer pred : ptr) st o o_in :
  layer ≠ pred →
  objs st !! layer = Some o →
  is_activation a o →
  objs st !! pred = Some o_in →
  ∃ st' b' p' d,
    initializer a layer pred st = Some (layer, st') ∧
    load_base layer st' = Some b' ∧
    load_base pred st' = Some p' ∧
    configured_dtype o = Some d ∧
    input_layer b' = pred ∧
    output_layer p' = layer ∧
    layer_configuration b' = layer ∧
    layer_type b' = layertype_of a ∧
    dtype (result b') = d ∧
    dim (result b') = dim (result p') ∧
    shape (result b') = shape (result p') ∧
    result p' = result (base_of o_in) ∧
    dtype (deltas b') = d ∧
    shape (deltas b') = shape (result b') ∧
    forward b' = forward_fn a ∧
    backward b' = backward_fn a ∧
    calc_result_shape b' = calc_result_shape_fn a ∧
    sizeof_paramem b' = fn_null ∧
    set_paramem b' = fn_null ∧
    sizeof_trainmem b' = fn_null ∧
    set_trainmem b' = fn_null ∧
    trainable_params_count b' = 0%Z ∧
    mem st' = mem st.
Proof.
  intros Hne Hl Ha Hin.
  destruct (initializer_eq a layer pred st o o_in Hne Hl Ha Hin)
    as (d & Hd & ->).
  eexists _, _, _, d. split; [reflexivity|].
  unfold load_base; cbn [objs mem].
  rewrite lookup_insert_eq, lookup_insert_ne, lookup_insert_eq by done.
  cbn [fmap option_fmap option_map]. rewrite !base_of_map_base.
  split; [reflexivity|]. split; [reflexivity|]. split; [exact Hd|].
  by destruct o_in as [[]|[[]]|[[]]].
Qed.

(** C10.  After either initializer the node's gradient tensor has
    dimensionality 2 whatever the predecessor's result has, the node's
    result tensor has the predecessor result's dimensionality, and both
    hold the same shape pointer; so for a predecessor whose result is not
    2-dimensional the two dimensionalities differ. *)
Theorem initializer_deltas_dim_fixed a (layer pred : ptr) st o o_in :
  layer ≠ pred →
  objs st !! layer = Some o →
  is_activation a o →
  objs st !! pred = Some o_in →
  ∃ st' b',
    initializer a layer pred st = Some (layer, st') ∧
    load_base layer st' = Some b' ∧
    dim (deltas b') = 2%Z ∧
    dim (result b') = dim (result (base_of o_in)) ∧
    shape (deltas b') = shape (result b') ∧
    (dim (result (base_of o_in)) ≠ 2%Z → dim (deltas b') ≠ dim (result b')).
Proof.
  intros Hne Hl Ha Hin.
  destruct (initializer_eq a layer pred st o o_in Hne Hl Ha Hin)
    as (d & Hd & ->).
  eexists _, _. split; [reflexivity|].
  unfold load_base; cbn [objs mem]. rewrite lookup_insert_eq.
  cbn [fmap option_fmap option_map]. rewrite base_of_map_base.
  split; [reflexivity|]. cbn. repeat split; congruence.
Qed.

End InitializerClaims.

(** The amended C4 at the uninitialized example chain, for the Sigmoid
    initializer and a predecessor of dtype 9. *)
Lemma initializer_wires_node_witness :
  ∃ st' b' p' d,
    initializer Sigmoid 2 1 (ex_uninit Sigmoid 9 2) = Some (2%N, st') ∧
    load_base 2 st' = Some b' ∧
    load_base 1 st' = Some p' ∧
    configured_dtype (ex_raw_node Sigmoid) = Some d ∧
    input_layer b' = 1%N ∧
    output_layer p' = 2%N ∧
    layer_configuration b' = 2%N ∧
    layer_type b' = layertype_of Sigmoid ∧
    dtype (result b') = d ∧
    dim (result b') = dim (result p') ∧
    shape (result b') = shape (result p') ∧
    result p' = result (base_of (obj_layer (E:=Q) (ex_pred 9 2))) ∧
    dtype (deltas b') = d ∧
    shape (deltas b') = shape (result b') ∧
    forward b' = forward_fn Sigmoid ∧
    backward b' = backward_fn Sigmoid ∧
    calc_result_shape b' = calc_result_shape_fn Sigmoid ∧
    sizeof_paramem b' = fn_null ∧
    set_paramem b' = fn_null ∧
    sizeof_trainmem b' = fn_null ∧
    set_trainmem b' = fn_null ∧
    trainable_params_count b' = 0%Z ∧
    mem st' = mem (ex_uninit Sigmoid 9 2).
Proof.
  apply (initializer_wires_node Sigmoid 2 1 (ex_uninit Sigmoid 9 2)
           (ex_raw_node Sigmoid) (obj_layer (ex_pred 9 2)));
    [ discriminate | reflexivity | exact I | reflexivity ].
Defined.

(** C4 as stated fails: the result dtype is not copied from the
    predecessor's result.  On the example chain the predecessor's result has
    dtype address 9 and the node is configured with dtype address 8; after
    either initializer the node's result dtype is 8 and the predecessor's is
    still 9. *)
Lemma initializer_dtype_not_from_predecessor :
  result_dtype_after (ailayer_sigmoid 2 1 (ex_uninit Sigmoid 9 2)) 2
    = Some 8%N ∧
  result_dtype_after (ailayer_sigmoid 2 1 (ex_uninit Sigmoid 9 2)) 1
    = Some 9%N ∧
  result_dtype_after (ailayer_leaky_relu 2 1 (ex_uninit LeakyReLU 9 2)) 2
    = Some 8%N ∧
  result_dtype_after (ailayer_leaky_relu 2 1 (ex_uninit LeakyReLU 9 2)) 1
    = Some 9%N.
Proof. repeat split; vm_compute; reflexivity. Qed.

(** C10 at the example chain with a 3-dimensional predecessor result. *)
Lemma initializer_deltas_dim_fixed_witness :
  ∃ st' b',
    initializer LeakyReLU 2 1 (ex_uninit LeakyReLU 9 3) = Some (2%N, st') ∧
    load_base 2 st' = Some b' ∧
    dim (deltas b') = 2%Z ∧
    dim (result b') = dim (result (base_of (obj_layer (E:=Q) (ex_pred 9 3)))) ∧
    shape (deltas b') = shape (result b') ∧
    (dim (result (base_of (obj_layer (E:=Q) (ex_pred 9 3)))) ≠ 2%Z →
     dim (deltas b') ≠ dim (result b')).
Proof.
  apply (initializer_deltas_dim_fixed LeakyReLU 2 1 (ex_uninit LeakyReLU 9 3)
           (ex_raw_node LeakyReLU) (obj_layer (ex_pred 9 3)));
    [ discriminate | reflexivity | exact I | reflexivity ].
Defined.

(** ** Memory *)

Section MemoryFacts.

Context {E : Type}.
Implicit Types (m : memory E) (p q : ptr) (vs : list E).

Lemma load_elems_store_eq p vs m :
  is_Some (blocks m !! p) → load_elems (store_elems p vs m) p = vs.
Proof.
  intros [b Hb]. unfold load_elems, store_elems; cbn.
  by rewrite lookup_alter_eq, Hb.
Qed.

Lemma blocks_store_ne p q vs m :
  p ≠ q → blocks (store_elems p vs m) !! q = blocks m !! q.
Proof. intros. unfold store_elems; cbn. by rewrite lookup_alter_ne. Qed.

Lemma load_elems_store_ne p q vs m :
  p ≠ q → load_elems (store_elems p vs m) q = load_elems m q.
Proof. intros. unfold load_elems. by rewrite blocks_store_ne. Qed.

Lemma store_live p q vs m :
  is_Some (blocks (store_elems p vs m) !! q) ↔ is_Some (blocks m !! q).
Proof.
  unfold store_elems; cbn. destruct (decide (p = q)) as [->|].
  - rewrite lookup_alter_eq. by rewrite fmap_is_Some.
  - by rewrite lookup_alter_ne.
Qed.

Lemma fresh_block_spec m :
  blocks m !! fresh_block m = None ∧ fresh_block m ≠ NULL.
Proof.
  pose proof (is_fresh ({[NULL]} ∪ dom (blocks m))) as Hf.
  fold (fresh_block m) in Hf. split.
  - apply not_elem_of_dom. set_solver.
  - set_solver.
Qed.

Lemma blocks_alloc_eq p n vs m :
  blocks (alloc_block p n vs m) !! p
  = Some {| blk_bytes := n; blk_elems := vs |}.
Proof. unfold alloc_block; cbn. by rewrite lookup_insert_eq. Qed.

Lemma blocks_alloc_ne p q n vs m :
  p ≠ q → blocks (alloc_block p n vs m) !! q = blocks m !! q.
Proof. intros. unfold alloc_block; cbn. by rewrite lookup_insert_ne. Qed.

Lemma blocks_release_eq p m : blocks (release_block p m) !! p = None.
Proof. unfold release_block; cbn. by rewrite lookup_delete_eq. Qed.

Lemma blocks_release_ne p q m :
  p ≠ q → blocks (release_block p m) !! q = blocks m !! q.
Proof. intros. unfold release_block; cbn. by rewrite lookup_delete_ne. Qed.

Lemma live_not_fresh m p q :
  is_Some (blocks m !! p) → blocks m !! q = None → q ≠ p.
Proof. intros [b Hb] Hq ->. congruence. Qed.

Lemma load_elems_ext m m' p :
  blocks m' !! p = blocks m !! p → load_elems m' p = load_elems m p.
Proof. unfold load_elems. by intros ->. Qed.

(** The elementwise kernels obey the kernel contract. *)
Lemma store_elems_writes_only (res : aitensor_t) vs m :
  writes_only res m (store_elems (data res) vs m).
Proof. split; [done|]. intros q Hq _. by apply blocks_store_ne. Qed.

Lemma writes_only_refl (res : aitensor_t) m : writes_only res m m.
Proof. by split. Qed.

Lemma elementwise_frame (f : E → E) : unary_frame (elementwise f).
Proof. intros x res m. apply store_elems_writes_only. Qed.

Lemma elementwise_scalar_frame (f : E → E → E) :
  scalar_frame (elementwise_scalar f).
Proof.
  intros x a res m. unfold elementwise_scalar.
  destruct (load_elems m a);
    [apply writes_only_refl | apply store_elems_writes_only].
Qed.

Lemma elementwise_multiply_frame (mul : E → E → E) :
  binary_frame (elementwise_multiply mul).
Proof. intros a b res m. apply store_elems_writes_only. Qed.

End MemoryFacts.

(** ** Byte counts *)

Lemma uint32_add_1_below n :
  (n < UINT32_MAX)%N → uint32_add n 1 = (n + 1)%N.
Proof.
  unfold uint32_add, uint32, UINT32_MAX. intros Hn.
  apply N.mod_small. lia.
Qed.

Lemma uint32_add_1_max n : n = UINT32_MAX → uint32_add n 1 = 0%N.
Proof. by intros ->. Qed.

(** ** The automatic storage of the Sigmoid backward pass *)

Section Scratch.

Context {E : Type}.
Variable aimath_sizeof_tensor_params : gmap N (list Z) → aitensor_t → N.
Variable aimath_sizeof_tensor_data : gmap N (list Z) → aitensor_t → N.

(** The two arrays get distinct addresses that were not live before, hold
    the junk they were entered with, and leave every other block alone. *)
Lemma sigmoid_backward_locals_spec jp jd (x_in : aitensor_t) (m : memory E) :
  ∃ p1 p2 m0,
    sigmoid_backward_locals aimath_sizeof_tensor_params
      aimath_sizeof_tensor_data jp jd x_in m =
      ({| dtype := dtype x_in; dim := 2; shape := shape x_in;
          tensor_params := p1; data := p2 |}, m0) ∧
    p1 ≠ p2 ∧
    blocks m !! p1 = None ∧ blocks m !! p2 = None ∧
    blocks m0 !! p1 =
      Some {| blk_bytes :=
                uint32_add
                  (uint32 (aimath_sizeof_tensor_params (shapes m) x_in)) 1;
              blk_elems := jp |} ∧
    blocks m0 !! p2 =
      Some {| blk_bytes := uint32 (aimath_sizeof_tensor_data (shapes m) x_in);
              blk_elems := jd |} ∧
    shapes m0 = shapes m ∧
    ∀ q, q ≠ p1 → q ≠ p2 → blocks m0 !! q = blocks m !! q.
Proof.
  unfold sigmoid_backward_locals.
  set (p1 := fresh_block m).
  set (m1 := alloc_block p1 _ jp m).
  set (p2 := fresh_block m1).
  destruct (fresh_block_spec m) as [Hp1 _]. fold p1 in Hp1.
  destruct (fresh_block_spec m1) as [Hp2 _]. fold p2 in Hp2.
  assert (Hne : p1 ≠ p2).
  { intros Heq. rewrite <- Heq in Hp2. subst m1.
    by rewrite blocks_alloc_eq in Hp2. }
  eexists p1, p2, _. split; [reflexivity|].
  split; [done|]. split; [done|].
  split. { subst m1. by rewrite blocks_alloc_ne in Hp2. }
  split. { rewrite blocks_alloc_ne by done. subst m1. apply blocks_alloc_eq. }
  split. { apply blocks_alloc_eq. }
  split; [done|].
  intros q Hq1 Hq2. rewrite blocks_alloc_ne by done.
  subst m1. by rewrite blocks_alloc_ne.
Qed.

End Scratch.

(** ** The Sigmoid backward pass *)

Section SigmoidBackward.

Context {E : Type}.
Variable aimath_sizeof_tensor_params : gmap N (list Z) → aitensor_t → N.
Variable aimath_sizeof_tensor_data : gmap N (list Z) → aitensor_t → N.
Implicit Types (st : state E) (b inl outl : ailayer_t)
  (l : ailayer_sigmoid_t E).

Lemma ailayer_sigmoid_backward_eq jp jd (self : ptr) st b l outl inl ks kd km :
  load_base self st = Some b →
  objs st !! layer_configuration b = Some (obj_sigmoid l) →
  load_base (output_layer b) st = Some outl →
  load_base (input_layer b) st = Some inl →
  sigmoid l = Some ks → d_sigmoid l = Some kd → sigm_multiply l = Some km →
  ailayer_sigmoid_backward aimath_sizeof_tensor_params
    aimath_sizeof_tensor_data jp jd self st =
  Some (set_mem
          (let frame := sigmoid_backward_locals aimath_sizeof_tensor_params
                          aimath_sizeof_tensor_data jp jd (result inl)
                          (mem st) in
           let scratch := frame.1 in
           sigmoid_backward_return scratch
             (km scratch (deltas outl) (deltas b)
                (kd scratch scratch (ks (result inl) scratch frame.2)))) st).
Proof.
  intros Hb Hl Hout Hin Hs Hd Hm. unfold ailayer_sigmoid_backward.
  rewrite Hb; cbn [mbind option_bind].
  rewrite Hl; cbn [mbind option_bind as_sigmoid].
  rewrite Hout; cbn [mbind option_bind]. rewrite Hin; cbn [mbind option_bind].
  cbv zeta.
  destruct (sigmoid_backward_locals aimath_sizeof_tensor_params
              aimath_sizeof_tensor_data jp jd (result inl) (mem st))
    as [scratch m0].
  rewrite Hs, Hd, Hm. reflexivity.
Qed.

(** With elementwise kernels: what each of the three calls leaves behind. *)
Lemma sigmoid_backward_elementwise jp jd (x_in delta_out delta_in : aitensor_t)
    (m : memory E) (fs fd : E → E) (mul : E → E → E) :
  tensor_live m x_in → tensor_live m delta_out → tensor_live m delta_in →
  let frame := sigmoid_backward_locals aimath_sizeof_tensor_params
                 aimath_sizeof_tensor_data jp jd x_in m in
  let scratch := frame.1 in
  let m0 := frame.2 in
  let m1 := elementwise fs x_in scratch m0 in
  let m2 := elementwise fd scratch scratch m1 in
  let m3 := elementwise_multiply mul scratch delta_out delta_in m2 in
  let xs := load_elems m (data x_in) in
  let gs := load_elems m (data delta_out) in
  load_elems m1 (data scratch) = fs <$> xs ∧
  load_elems m2 (data scratch) = fd <$> (fs <$> xs) ∧
  load_elems m3 (data delta_in) = zip_with mul (fd <$> (fs <$> xs)) gs ∧
  load_elems (sigmoid_backward_return scratch m3) (data delta_in)
    = zip_with mul (fd <$> (fs <$> xs)) gs ∧
  shapes (sigmoid_backward_return scratch m3) = shapes m ∧
  is_Some (blocks (sigmoid_backward_return scratch m3) !! data delta_in) ∧
  ∀ q, q ≠ data delta_in →
       blocks (sigmoid_backward_return scratch m3) !! q = blocks m !! q.
Proof.
  intros Hx Hg Hd.
  destruct (sigmoid_backward_locals_spec aimath_sizeof_tensor_params
              aimath_sizeof_tensor_data jp jd x_in m)
    as (p1 & p2 & m0 & -> & Hne & Hp1 & Hp2 & Hm1 & Hm2 & Hsh & Hfr).
  cbn [fst snd data tensor_params]. cbv zeta.
  pose proof (live_not_fresh _ _ _ Hx Hp1) as Hx1.
  pose proof (live_not_fresh _ _ _ Hx Hp2) as Hx2.
  pose proof (live_not_fresh _ _ _ Hg Hp1) as Hg1.
  pose proof (live_not_fresh _ _ _ Hg Hp2) as Hg2.
  pose proof (live_not_fresh _ _ _ Hd Hp1) as Hd1.
  pose proof (live_not_fresh _ _ _ Hd Hp2) as Hd2.
  unfold elementwise, elementwise_multiply; cbn [data].
  assert (Hxs : load_elems m0 (data x_in) = load_elems m (data x_in)).
  { apply load_elems_ext, Hfr; congruence. }
  rewrite Hxs.
  set (xs := load_elems m (data x_in)).
  set (m1 := store_elems p2 (fs <$> xs) m0).
  assert (H1 : load_elems m1 p2 = fs <$> xs).
  { apply load_elems_store_eq. by rewrite Hm2. }
  rewrite H1.
  set (m2 := store_elems p2 (fd <$> (fs <$> xs)) m1).
  assert (H2 : load_elems m2 p2 = fd <$> (fs <$> xs)).
  { apply load_elems_store_eq, store_live. by rewrite Hm2. }
  rewrite H2.
  assert (Hgs : load_elems m2 (data delta_out) = load_elems m (data delta_out)).
  { subst m2 m1. rewrite !load_elems_store_ne by done.
    apply load_elems_ext, Hfr; congruence. }
  rewrite Hgs.
  set (gs := load_elems m (data delta_out)).
  set (v := zip_with mul (fd <$> (fs <$> xs)) gs).
  assert (Hlive : is_Some (blocks m2 !! data delta_in)).
  { subst m2 m1. apply store_live, store_live. rewrite Hfr by done. exact Hd. }
  assert (H3 : load_elems (store_elems (data delta_in) v m2) (data delta_in) = v).
  { by apply load_elems_store_eq. }
  split; [done|]. split; [done|]. split; [done|].
  unfold sigmoid_backward_return; cbn [data tensor_params].
  split.
  { rewrite <- H3 at 2. apply load_elems_ext.
    rewrite !blocks_release_ne by done. reflexivity. }
  split; [done|].
  split.
  { rewrite !blocks_release_ne by done. by apply store_live. }
  intros q Hq.
  destruct (decide (q = p1)) as [->|Hq1].
  { by rewrite blocks_release_eq, Hp1. }
  rewrite blocks_release_ne by done.
  destruct (decide (q = p2)) as [->|Hq2].
  { by rewrite blocks_release_eq, Hp2. }
  rewrite blocks_release_ne by done.
  rewrite blocks_store_ne by done. subst m2 m1.
  rewrite !blocks_store_ne by done. by apply Hfr.
Qed.


(** C1.  One backward call of a Sigmoid node with installed kernels [ks]
    (activate), [kd] (derivative) and [km] (multiply) is exactly: enter the
    scratch tensor; [ks] from the predecessor's result into the scratch;
    [kd] from the scratch into the scratch; [km] of the scratch and the
    successor's gradient tensor into the node's own gradient slot; leave.
    The storage the derivative kernel reads is the scratch, which is not the
    storage of the raw input (it was not live before the call); for
    elementwise kernels the scratch holds sigmoid(x) after the first call,
    derivative(sigmoid(x)) after the second, and the gradient slot ends as
    their elementwise product with the successor's gradient. *)
Theorem sigmoid_backward_steps jp jd (self : ptr) st b l outl inl ks kd km :
  load_base self st = Some b →
  objs st !! layer_configuration b = Some (obj_sigmoid l) →
  load_base (output_layer b) st = Some outl →
  load_base (input_layer b) st = Some inl →
  sigmoid l = Some ks → d_sigmoid l = Some kd → sigm_multiply l = Some km →
  let x_in := result inl in
  let delta_out := deltas outl in
  let delta_in := deltas b in
  let frame := sigmoid_backward_locals aimath_sizeof_tensor_params
                 aimath_sizeof_tensor_data jp jd x_in (mem st) in
  let scratch := frame.1 in
  let m0 := frame.2 in
  let m1 := ks x_in scratch m0 in
  let m2 := kd scratch scratch m1 in
  let m3 := km scratch delta_out delta_in m2 in
  ailayer_sigmoid_backward aimath_sizeof_tensor_params
    aimath_sizeof_tensor_data jp jd self st
    = Some (set_mem (sigmoid_backward_return scratch m3) st) ∧
  blocks (mem st) !! data scratch = None ∧
  ∀ fs fd mul,
    ks = elementwise fs → kd = elementwise fd →
    km = elementwise_multiply mul →
    tensor_live (mem st) x_in → tensor_live (mem st) delta_out →
    tensor_live (mem st) delta_in →
    let xs := load_elems (mem st) (data x_in) in
    let gs := load_elems (mem st) (data delta_out) in
    load_elems m1 (data scratch) = fs <$> xs ∧
    load_elems m2 (data scratch) = fd <$> (fs <$> xs) ∧
    load_elems m3 (data delta_in) = zip_with mul (fd <$> (fs <$> xs)) gs ∧
    deltas_after (ailayer_sigmoid_backward aimath_sizeof_tensor_params
                    aimath_sizeof_tensor_data jp jd self st) self
      = Some (zip_with mul (fd <$> (fs <$> xs)) gs).
Proof.
  intros Hb Hl Hout Hin Hs Hd Hm. cbv zeta.
  rewrite (ailayer_sigmoid_backward_eq jp jd self st b l outl inl ks kd km)
    by done.
  split; [reflexivity|]. split.
  { destruct (sigmoid_backward_locals_spec aimath_sizeof_tensor_params
                aimath_sizeof_tensor_data jp jd (result inl) (mem st))
      as (p1 & p2 & m0 & -> & _ & _ & Hp2 & _). exact Hp2. }
  intros fs fd mul -> -> -> Hx Hg Hdl.
  destruct (sigmoid_backward_elementwise jp jd (result inl) (deltas outl)
              (deltas b) (mem st) fs fd mul Hx Hg Hdl)
    as (H1 & H2 & H3 & H4 & _).
  split; [exact H1|]. split; [exact H2|]. split; [exact H3|].
  unfold deltas_after, set_mem; cbn [mbind option_bind mem].
  change (load_base self _) with (load_base self st). rewrite Hb.
  cbn [mbind option_bind]. f_equal. exact H4.
Qed.

(** C2 (as amended).  Each Sigmoid backward call enters with two arrays
    that were not live before.  The scratch's data buffer has exactly the
    predecessor result's payload byte count.  The scratch's parameter
    buffer has the predecessor result's parameter byte count plus one, the
    sum taken in [uint32_t]: one byte more than the count (so not an array
    of size 0) as long as the count is below [UINT32_MAX], and 0 bytes when
    the count is [UINT32_MAX].  The scratch descriptor takes shape pointer
    and dtype from the predecessor's result.  When the call returns neither
    array is live any more and no layer struct has changed, so nothing
    refers to them. *)
Theorem sigmoid_backward_scratch jp jd (self : ptr) st b l outl inl ks kd km :
  load_base self st = Some b →
  objs st !! layer_configuration b = Some (obj_sigmoid l) →
  load_base (output_layer b) st = Some outl →
  load_base (input_layer b) st = Some inl →
  sigmoid l = Some ks → d_sigmoid l = Some kd → sigm_multiply l = Some km →
  let params_count :=
    uint32 (aimath_sizeof_tensor_params (shapes (mem st)) (result inl)) in
  let data_count :=
    uint32 (aimath_sizeof_tensor_data (shapes (mem st)) (result inl)) in
  ∃ scratch m0 st',
    sigmoid_backward_locals aimath_sizeof_tensor_params
      aimath_sizeof_tensor_data jp jd (result inl) (mem st) = (scratch, m0) ∧
    ailayer_sigmoid_backward aimath_sizeof_tensor_params
      aimath_sizeof_tensor_data jp jd self st = Some st' ∧
    blocks (mem st) !! tensor_params scratch = None ∧
    blocks (mem st) !! data scratch = None ∧
    blk_bytes <$> blocks m0 !! tensor_params scratch
      = Some (uint32_add params_count 1) ∧
    ((params_count < UINT32_MAX)%N →
     blk_bytes <$> blocks m0 !! tensor_params scratch
       = Some (params_count + 1)%N) ∧
    (params_count = UINT32_MAX →
     blk_bytes <$> blocks m0 !! tensor_params scratch = Some 0%N) ∧
    blk_bytes <$> blocks m0 !! data scratch = Some data_count ∧
    shape scratch = shape (result inl) ∧
    dtype scratch = dtype (result inl) ∧
    blocks (mem st') !! tensor_params scratch = None ∧
    blocks (mem st') !! data scratch = None ∧
    objs st' = objs st.
Proof.
  intros Hb Hl Hout Hin Hs Hd Hm. cbv zeta.
  rewrite (ailayer_sigmoid_backward_eq jp jd self st b l outl inl ks kd km)
    by done.
  destruct (sigmoid_backward_locals_spec aimath_sizeof_tensor_params
              aimath_sizeof_tensor_data jp jd (result inl) (mem st))
    as (p1 & p2 & m0 & -> & Hne & Hp1 & Hp2 & Hm1 & Hm2 & _).
  eexists _, _, _. split; [reflexivity|]. split; [reflexivity|].
  cbn [fst snd data tensor_params shape dtype set_mem mem objs].
  split; [done|]. split; [done|].
  split; [by rewrite Hm1|].
  split; [intros Hlt; rewrite Hm1; cbn; f_equal; by apply uint32_add_1_below|].
  split; [intros Hmax; rewrite Hm1; cbn; f_equal; by apply uint32_add_1_max|].
  split; [by rewrite Hm2|].
  split; [done|]. split; [done|].
  unfold sigmoid_backward_return; cbn [data tensor_params].
  split; [apply blocks_release_eq|].
  split; [|done].
  rewrite blocks_release_ne by done. apply blocks_release_eq.
Qed.

End SigmoidBackward.

(** C1 on the example chain over the rationals: x = [-2, 0, 3],
    g = [1, 1, 1], activate x = x + 1, derivative s = s (1 - s). *)
Lemma sigmoid_backward_steps_witness :
  deltas_after
    (ailayer_sigmoid_backward ex_sizeof_tensor_params ex_sizeof_tensor_data
       [] [9%Q] 2 (ex_sigmoid_state_Q [7; 7; 7]%Q [1; 1; 1]%Q)) 2
  = Some (zip_with Qmult
            ((λ s : Q, (s * (1 - s))%Q) <$>
               ((λ x : Q, (x + 1)%Q) <$> [-2; 0; 3]%Q))
            [1; 1; 1]%Q).
Proof.
  refine (proj2 (proj2 (proj2
    (proj2 (proj2
       (sigmoid_backward_steps ex_sizeof_tensor_params ex_sizeof_tensor_data
          [] [9%Q] 2 (ex_sigmoid_state_Q [7; 7; 7]%Q [1; 1; 1]%Q)
          (ex_node Sigmoid) (ex_sigmoid_Q (ex_node Sigmoid))
          ex_succ (set_output_layer 2 (ex_pred 8 2)) _ _ _
          eq_refl eq_refl eq_refl eq_refl eq_refl eq_refl eq_refl))
       _ _ _ eq_refl eq_refl eq_refl _ _ _)))); by eexists.
Defined.

(** C2 (as amended) on the example chain: four-byte elements, no tensor
    parameters. *)
Lemma sigmoid_backward_scratch_witness :
  ∃ scratch m0 st',
    sigmoid_backward_locals ex_sizeof_tensor_params ex_sizeof_tensor_data
      [] [9%Q] (result (set_output_layer 2 (ex_pred 8 2)))
      (mem (ex_sigmoid_state_Q [7; 7; 7]%Q [1; 1; 1]%Q)) = (scratch, m0) ∧
    ailayer_sigmoid_backward ex_sizeof_tensor_params ex_sizeof_tensor_data
      [] [9%Q] 2 (ex_sigmoid_state_Q [7; 7; 7]%Q [1; 1; 1]%Q) = Some st' ∧
    blocks (mem (ex_sigmoid_state_Q [7; 7; 7]%Q [1; 1; 1]%Q))
      !! tensor_params scratch = None ∧
    blocks (mem (ex_sigmoid_state_Q [7; 7; 7]%Q [1; 1; 1]%Q))
      !! data scratch = None ∧
    blk_bytes <$> blocks m0 !! tensor_params scratch = Some 1%N ∧
    blk_bytes <$> blocks m0 !! data scratch = Some 12%N ∧
    shape scratch = 20%N ∧
    dtype scratch = 8%N ∧
    blocks (mem st') !! tensor_params scratch = None ∧
    blocks (mem st') !! data scratch = None ∧
    objs st' = objs (ex_sigmoid_state_Q [7; 7; 7]%Q [1; 1; 1]%Q).
Proof.
  destruct (sigmoid_backward_scratch ex_sizeof_tensor_params
              ex_sizeof_tensor_data [] [9%Q] 2
              (ex_sigmoid_state_Q [7; 7; 7]%Q [1; 1; 1]%Q)
              (ex_node Sigmoid) (ex_sigmoid_Q (ex_node Sigmoid))
              ex_succ (set_output_layer 2 (ex_pred 8 2)) _ _ _
              eq_refl eq_refl eq_refl eq_refl eq_refl eq_refl eq_refl)
    as (scratch & m0 & st' & Hloc & Hrun & Hp & Hd & _ & Hone & _ & Hdat
        & Hsh & Hdt & Hp' & Hd' & Hobjs).
  exists scratch, m0, st'.
  split; [exact Hloc|]. split; [exact Hrun|].
  split; [exact Hp|]. split; [exact Hd|].
  split; [apply Hone; reflexivity|]. split; [exact Hdat|].
  split; [exact Hsh|]. split; [exact Hdt|].
  split; [exact Hp'|]. split; [exact Hd'|]. exact Hobjs.
Defined.

(** C2 as stated fails: the scratch's parameter buffer does not hold
    exactly the predecessor result's parameter byte count.  On the example
    chain that count is 0 and the buffer has 1 byte (the data buffer has
    the 12 bytes of the predecessor's payload). *)
Lemma sigmoid_scratch_params_one_byte_more :
  ex_sizeof_tensor_params
                (shapes (mem (ex_sigmoid_state_Q [7; 7; 7]%Q [1; 1; 1]%Q)))
    (tensor_at 8 2 20 10) = 0%N ∧
  scratch_bytes tensor_params
    (sigmoid_backward_locals ex_sizeof_tensor_params ex_sizeof_tensor_data
       [] [9%Q] (tensor_at 8 2 20 10) (mem (ex_sigmoid_state_Q [7; 7; 7]%Q [1; 1; 1]%Q)))
  = Some 1%N ∧
  ex_sizeof_tensor_data
                (shapes (mem (ex_sigmoid_state_Q [7; 7; 7]%Q [1; 1; 1]%Q)))
    (tensor_at 8 2 20 10) = 12%N ∧
  scratch_bytes data
    (sigmoid_backward_locals ex_sizeof_tensor_params ex_sizeof_tensor_data
       [] [9%Q] (tensor_at 8 2 20 10) (mem (ex_sigmoid_state_Q [7; 7; 7]%Q [1; 1; 1]%Q)))
  = Some 12%N.
Proof. repeat split; vm_compute; reflexivity. Qed.

(** At the largest parameter byte count the [uint32_t] sum wraps around:
    for a data type with [UINT32_MAX] parameter bytes the parameter buffer
    of the scratch has no byte at all. *)
Lemma sigmoid_scratch_params_wrap :
  scratch_bytes tensor_params
    (sigmoid_backward_locals (λ _ _, UINT32_MAX) ex_sizeof_tensor_data
       [] [9%Q] (tensor_at 8 2 20 10)
       (mem (ex_sigmoid_state_Q [7; 7; 7]%Q [1; 1; 1]%Q)))
  = Some 0%N.
Proof. vm_compute; reflexivity. Qed.

(** ** The Leaky ReLU backward pass *)

Section LeakyReLUBackward.

Context {E : Type}.
Implicit Types (st : state E) (b inl outl : ailayer_t)
  (l : ailayer_leaky_relu_t E) (m : memory E).

Lemma ailayer_leaky_relu_backward_eq (self : ptr) st b l outl inl kd km :
  load_base self st = Some b →
  objs st !! layer_configuration b = Some (obj_leaky_relu l) →
  load_base (output_layer b) st = Some outl →
  load_base (input_layer b) st = Some inl →
  d_leaky_relu l = Some kd → lrelu_multiply l = Some km →
  ailayer_leaky_relu_backward self st =
  Some (set_mem
          (km (deltas b) (deltas outl) (deltas b)
             (kd (result inl) (alpha l) (deltas b) (mem st))) st).
Proof.
  intros Hb Hl Hout Hin Hd Hm. unfold ailayer_leaky_relu_backward.
  rewrite Hb; cbn [mbind option_bind].
  rewrite Hl; cbn [mbind option_bind as_leaky_relu].
  rewrite Hout; cbn [mbind option_bind].
  rewrite Hin; cbn [mbind option_bind].
  by rewrite Hd, Hm.
Qed.

(** With elementwise kernels: the slot after each of the two calls. *)
Lemma leaky_relu_backward_elementwise (x_in delta_out delta_in : aitensor_t)
    (al : ptr) m (fd mul : E → E → E) a rest :
  load_elems m al = a :: rest →
  tensor_live m delta_in →
  data delta_in ≠ data delta_out →
  let m1 := elementwise_scalar fd x_in al delta_in m in
  let m2 := elementwise_multiply mul delta_in delta_out delta_in m1 in
  let xs := load_elems m (data x_in) in
  let gs := load_elems m (data delta_out) in
  load_elems m1 (data delta_in) = fd a <$> xs ∧
  load_elems m2 (data delta_in) = zip_with mul (fd a <$> xs) gs ∧
  shapes m2 = shapes m ∧
  is_Some (blocks m2 !! data delta_in) ∧
  ∀ q, q ≠ data delta_in → blocks m2 !! q = blocks m !! q.
Proof.
  intros Hal Hlive Hne. cbv zeta.
  unfold elementwise_scalar, elementwise_multiply. rewrite Hal.
  set (xs := load_elems m (data x_in)).
  set (m1 := store_elems (data delta_in) (fd a <$> xs) m).
  assert (H1 : load_elems m1 (data delta_in) = fd a <$> xs)
    by by apply load_elems_store_eq.
  rewrite H1.
  assert (Hg : load_elems m1 (data delta_out) = load_elems m (data delta_out))
    by by apply load_elems_store_ne.
  rewrite Hg.
  split; [done|]. split.
  { apply load_elems_store_eq. by apply store_live. }
  split; [done|]. split.
  { by apply store_live, store_live. }
  intros q Hq. rewrite blocks_store_ne by done.
  subst m1. by rewrite blocks_store_ne.
Qed.

End LeakyReLUBackward.

(** C3.  One backward call of a Leaky ReLU node with installed kernels
    [kd] (derivative) and [km] (multiply) is exactly: [kd] from the
    predecessor's result, with the slope behind [alpha], into the node's own
    gradient slot; then [km] of that slot and the successor's gradient
    tensor into the same slot.  With the Leaky ReLU derivative and the
    elementwise product as kernels the slot holds derivative(x) after the
    first call and derivative(x) times the successor's gradient after the
    second; for x = [-2, 0, 3], g = [1, 1, 1] and alpha = 0.1 it ends as
    [0.1, 1, 1]. *)
Theorem leaky_relu_backward_steps (self : ptr) (st : state Q) b l outl inl
    kd km :
  load_base self st = Some b →
  objs st !! layer_configuration b = Some (obj_leaky_relu l) →
  load_base (output_layer b) st = Some outl →
  load_base (input_layer b) st = Some inl →
  d_leaky_relu l = Some kd → lrelu_multiply l = Some km →
  let x_in := result inl in
  let delta_out := deltas outl in
  let delta_in := deltas b in
  let m1 := kd x_in (alpha l) delta_in (mem st) in
  let m2 := km delta_in delta_out delta_in m1 in
  let xs := load_elems (mem st) (data x_in) in
  let gs := load_elems (mem st) (data delta_out) in
  ailayer_leaky_relu_backward self st = Some (set_mem m2 st) ∧
  ∀ slope,
    kd = d_leaky_relu_kernel → km = multiply_kernel →
    load_elems (mem st) (alpha l) = [slope] →
    tensor_live (mem st) delta_in →
    data delta_in ≠ data delta_out →
    load_elems m1 (data delta_in) = d_leaky_relu_scalar slope <$> xs ∧
    load_elems m2 (data delta_in)
      = zip_with Qmult (d_leaky_relu_scalar slope <$> xs) gs ∧
    (slope = 1 # 10 → xs = [-2; 0; 3]%Q → gs = [1; 1; 1]%Q →
     deltas_after (ailayer_leaky_relu_backward self st) self
       = Some [1 # 10; 1; 1]%Q).
Proof.
  intros Hb Hl Hout Hin Hd Hm. cbv zeta.
  rewrite (ailayer_leaky_relu_backward_eq self st b l outl inl kd km) by done.
  split; [reflexivity|].
  intros slope -> -> Hal Hlive Hne.
  destruct (leaky_relu_backward_elementwise (result inl) (deltas outl)
              (deltas b) (alpha l) (mem st) d_leaky_relu_scalar Qmult
              slope [] Hal Hlive Hne) as (H1 & H2 & _).
  split; [exact H1|]. split; [exact H2|].
  intros -> Hxs Hgs.
  unfold deltas_after, set_mem; cbn [mbind option_bind mem].
  change (load_base self _) with (load_base self st). rewrite Hb.
  cbn [mbind option_bind]. f_equal.
  unfold multiply_kernel, d_leaky_relu_kernel. rewrite H2, Hxs, Hgs.
  reflexivity.
Qed.

(** C3 on the example chain (scenario A), the slot holding leftovers
    [7, 7, 7] before the call. *)
Lemma leaky_relu_backward_steps_witness :
  deltas_after
    (ailayer_leaky_relu_backward 2 (ex_leaky_state [7; 7; 7]%Q [1; 1; 1]%Q)) 2
  = Some [1 # 10; 1; 1]%Q.
Proof.
  refine (proj2 (proj2
    (proj2
       (leaky_relu_backward_steps 2 (ex_leaky_state [7; 7; 7]%Q [1; 1; 1]%Q)
          (ex_node LeakyReLU) (ex_leaky_relu (ex_node LeakyReLU))
          ex_succ (set_output_layer 2 (ex_pred 8 2)) _ _
          eq_refl eq_refl eq_refl eq_refl eq_refl eq_refl)
       (1 # 10) eq_refl eq_refl eq_refl _ _)) eq_refl eq_refl eq_refl).
  - by eexists.
  - discriminate.
Defined.

(** ** What a backward pass reads and writes *)

Section BackwardReads.

Context {E : Type}.
Variable aimath_sizeof_tensor_params : gmap N (list Z) → aitensor_t → N.
Variable aimath_sizeof_tensor_data : gmap N (list Z) → aitensor_t → N.
Implicit Types (st : state E) (b inl outl : ailayer_t) (m : memory E).

Lemma sigmoid_backward_formula jp jd (self : ptr) st b l outl inl fs fd mul :
  load_base self st = Some b →
  objs st !! layer_configuration b = Some (obj_sigmoid l) →
  load_base (output_layer b) st = Some outl →
  load_base (input_layer b) st = Some inl →
  sigmoid l = Some (elementwise fs) →
  d_sigmoid l = Some (elementwise fd) →
  sigm_multiply l = Some (elementwise_multiply mul) →
  tensor_live (mem st) (result inl) →
  tensor_live (mem st) (deltas outl) →
  tensor_live (mem st) (deltas b) →
  ∃ st',
    ailayer_sigmoid_backward aimath_sizeof_tensor_params
      aimath_sizeof_tensor_data jp jd self st = Some st' ∧
    objs st' = objs st ∧
    shapes (mem st') = shapes (mem st) ∧
    load_elems (mem st') (data (deltas b))
      = zip_with mul
          (fd <$> (fs <$> load_elems (mem st) (data (result inl))))
          (load_elems (mem st) (data (deltas outl))) ∧
    is_Some (blocks (mem st') !! data (deltas b)) ∧
    ∀ q, q ≠ data (deltas b) → blocks (mem st') !! q = blocks (mem st) !! q.
Proof.
  intros Hb Hl Hout Hin Hs Hd Hm Hx Hg Hdl.
  rewrite (ailayer_sigmoid_backward_eq _ _ jp jd self st b l outl inl
             _ _ _ Hb Hl Hout Hin Hs Hd Hm).
  destruct (sigmoid_backward_elementwise aimath_sizeof_tensor_params
              aimath_sizeof_tensor_data jp jd (result inl) (deltas outl)
              (deltas b) (mem st) fs fd mul Hx Hg Hdl)
    as (_ & _ & _ & H4 & H5 & H6 & H7).
  eexists. split; [reflexivity|]. cbn [set_mem objs mem]. done.
Qed.

Lemma leaky_relu_backward_formula (self : ptr) st b l outl inl fd mul a rest :
  load_base self st = Some b →
  objs st !! layer_configuration b = Some (obj_leaky_relu l) →
  load_base (output_layer b) st = Some outl →
  load_base (input_layer b) st = Some inl →
  d_leaky_relu l = Some (elementwise_scalar fd) →
  lrelu_multiply l = Some (elementwise_multiply mul) →
  load_elems (mem st) (alpha l) = a :: rest →
  tensor_live (mem st) (deltas b) →
  data (deltas b) ≠ data (deltas outl) →
  ∃ st',
    ailayer_leaky_relu_backward self st = Some st' ∧
    objs st' = objs st ∧
    shapes (mem st') = shapes (mem st) ∧
    load_elems (mem st') (data (deltas b))
      = zip_with mul (fd a <$> load_elems (mem st) (data (result inl)))
          (load_elems (mem st) (data (deltas outl))) ∧
    is_Some (blocks (mem st') !! data (deltas b)) ∧
    ∀ q, q ≠ data (deltas b) → blocks (mem st') !! q = blocks (mem st) !! q.
Proof.
  intros Hb Hl Hout Hin Hd Hm Hal Hlive Hne.
  rewrite (ailayer_leaky_relu_backward_eq self st b l outl inl _ _
             Hb Hl Hout Hin Hd Hm).
  destruct (leaky_relu_backward_elementwise (result inl) (deltas outl)
              (deltas b) (alpha l) (mem st) fd mul a rest Hal Hlive Hne)
    as (_ & H2 & H3 & H4 & H5).
  eexists. split; [reflexivity|]. cbn [set_mem objs mem]. done.
Qed.

(** C5 (as amended).  For a Sigmoid node and for a Leaky ReLU node with
    elementwise kernels, backward reads the predecessor's result and the
    successor's gradient slot ([output_layer->deltas]) and writes the
    chain-rule product into the node's own gradient slot: the slot ends as
    derivative (of the predecessor's result) times the successor's gradient,
    no layer struct and no other block changes, and what the slot held
    before the call has no influence on the outcome. *)
Theorem backward_reads_successor_slot :
  (∀ jp jd (self : ptr) st b l outl inl fs fd mul,
     load_base self st = Some b →
     objs st !! layer_configuration b = Some (obj_sigmoid l) →
     load_base (output_layer b) st = Some outl →
     load_base (input_layer b) st = Some inl →
     sigmoid l = Some (elementwise fs) →
     d_sigmoid l = Some (elementwise fd) →
     sigm_multiply l = Some (elementwise_multiply mul) →
     tensor_live (mem st) (result inl) →
     tensor_live (mem st) (deltas outl) →
     tensor_live (mem st) (deltas b) →
     (∃ st',
        ailayer_sigmoid_backward aimath_sizeof_tensor_params
          aimath_sizeof_tensor_data jp jd self st = Some st' ∧
        objs st' = objs st ∧
        load_elems (mem st') (data (deltas b))
          = zip_with mul
              (fd <$> (fs <$> load_elems (mem st) (data (result inl))))
              (load_elems (mem st) (data (deltas outl))) ∧
        ∀ q, q ≠ data (deltas b) →
             blocks (mem st') !! q = blocks (mem st) !! q) ∧
     (data (deltas b) ≠ data (result inl) →
      data (deltas b) ≠ data (deltas outl) →
      ∀ leftovers jp' jd',
        deltas_after
          (ailayer_sigmoid_backward aimath_sizeof_tensor_params
             aimath_sizeof_tensor_data jp' jd' self
             (overwrite (data (deltas b)) leftovers st)) self
        = deltas_after (ailayer_sigmoid_backward aimath_sizeof_tensor_params
                          aimath_sizeof_tensor_data jp jd self st) self)) ∧
  (∀ (self : ptr) st b l outl inl fd mul slope rest,
     load_base self st = Some b →
     objs st !! layer_configuration b = Some (obj_leaky_relu l) →
     load_base (output_layer b) st = Some outl →
     load_base (input_layer b) st = Some inl →
     d_leaky_relu l = Some (elementwise_scalar fd) →
     lrelu_multiply l = Some (elementwise_multiply mul) →
     load_elems (mem st) (alpha l) = slope :: rest →
     tensor_live (mem st) (deltas b) →
     data (deltas b) ≠ data (deltas outl) →
     (∃ st',
        ailayer_leaky_relu_backward self st = Some st' ∧
        objs st' = objs st ∧
        load_elems (mem st') (data (deltas b))
          = zip_with mul
              (fd slope <$> load_elems (mem st) (data (result inl)))
              (load_elems (mem st) (data (deltas outl))) ∧
        ∀ q, q ≠ data (deltas b) →
             blocks (mem st') !! q = blocks (mem st) !! q) ∧
     (data (deltas b) ≠ data (result inl) →
      data (deltas b) ≠ alpha l →
      ∀ leftovers,
        deltas_after
          (ailayer_leaky_relu_backward self
             (overwrite (data (deltas b)) leftovers st)) self
        = deltas_after (ailayer_leaky_relu_backward self st) self)).
Proof.
  split.
  - intros jp jd self st b l outl inl fs fd mul Hb Hl Hout Hin Hs Hd Hm
      Hx Hg Hdl.
    destruct (sigmoid_backward_formula jp jd self st b l outl inl fs fd mul)
      as (st' & Hrun & Hobjs & _ & Hval & _ & Hframe); try done.
    split; [by exists st'|].
    intros Hnx Hng leftovers jp' jd'.
    destruct (sigmoid_backward_formula jp' jd' self
                (overwrite (data (deltas b)) leftovers st)
                b l outl inl fs fd mul)
      as (st'' & Hrun' & Hobjs' & _ & Hval' & _); try done;
      try (by apply store_live).
    rewrite Hrun, Hrun'. unfold deltas_after; cbn [mbind option_bind].
    unfold load_base. rewrite Hobjs', Hobjs. cbn [overwrite set_mem objs].
    fold (load_base self st). rewrite Hb. cbn [mbind option_bind].
    rewrite Hval, Hval'. cbn [overwrite set_mem mem].
    by rewrite !load_elems_store_ne.
  - intros self st b l outl inl fd mul slope rest Hb Hl Hout Hin Hd Hm
      Hal Hdl Hne.
    destruct (leaky_relu_backward_formula self st b l outl inl fd mul
                slope rest)
      as (st' & Hrun & Hobjs & _ & Hval & _ & Hframe); try done.
    split; [by exists st'|].
    intros Hnx Hna leftovers.
    destruct (leaky_relu_backward_formula self
                (overwrite (data (deltas b)) leftovers st)
                b l outl inl fd mul slope rest)
      as (st'' & Hrun' & Hobjs' & _ & Hval' & _); try done;
      try (by apply store_live).
    { cbn [overwrite set_mem mem]. by rewrite load_elems_store_ne. }
    rewrite Hrun, Hrun'. unfold deltas_after; cbn [mbind option_bind].
    unfold load_base. rewrite Hobjs', Hobjs. cbn [overwrite set_mem objs].
    fold (load_base self st). rewrite Hb. cbn [mbind option_bind].
    rewrite Hval, Hval'. cbn [overwrite set_mem mem].
    by rewrite !load_elems_store_ne.
Qed.

End BackwardReads.

(** The amended C5 on the example chains: overwriting the node's own slot
    does not change what backward leaves in it. *)
Lemma backward_reads_successor_slot_witness :
  deltas_after
    (ailayer_sigmoid_backward ex_sizeof_tensor_params ex_sizeof_tensor_data
       [] [] 2
       (overwrite 12 [4; 4; 4]%Q (ex_sigmoid_state_Q [7; 7; 7]%Q [1; 1; 1]%Q)))
    2
  = deltas_after
      (ailayer_sigmoid_backward ex_sizeof_tensor_params ex_sizeof_tensor_data
         [] [9%Q] 2 (ex_sigmoid_state_Q [7; 7; 7]%Q [1; 1; 1]%Q)) 2 ∧
  deltas_after
    (ailayer_leaky_relu_backward 2
       (overwrite 12 [4; 4; 4]%Q (ex_leaky_state [7; 7; 7]%Q [1; 1; 1]%Q))) 2
  = deltas_after
      (ailayer_leaky_relu_backward 2
         (ex_leaky_state [7; 7; 7]%Q [1; 1; 1]%Q)) 2.
Proof.
  split.
  - refine (proj2
      (proj1 (backward_reads_successor_slot ex_sizeof_tensor_params
                ex_sizeof_tensor_data)
         [] [9%Q] 2%N (ex_sigmoid_state_Q [7; 7; 7]%Q [1; 1; 1]%Q)
         (ex_node Sigmoid) (ex_sigmoid_Q (ex_node Sigmoid))
         ex_succ (set_output_layer 2 (ex_pred 8 2)) _ _ _
         eq_refl eq_refl eq_refl eq_refl eq_refl eq_refl eq_refl _ _ _)
      _ _ [4; 4; 4]%Q [] []);
      first [ by eexists | discriminate ].
  - refine (proj2
      (proj2 (backward_reads_successor_slot ex_sizeof_tensor_params
                ex_sizeof_tensor_data)
         2%N (ex_leaky_state [7; 7; 7]%Q [1; 1; 1]%Q)
         (ex_node LeakyReLU) (ex_leaky_relu (ex_node LeakyReLU))
         ex_succ (set_output_layer 2 (ex_pred 8 2)) _ _ (1 # 10) []
         eq_refl eq_refl eq_refl eq_refl eq_refl eq_refl eq_refl _ _)
      _ _ [4; 4; 4]%Q);
      first [ by eexists | discriminate ].
Defined.

(** C5 as stated fails: backward reads a gradient storage other than the
    node's own slot.  The two runs below start from states that agree on
    the node's own slot ([1, 1, 1]) and on the predecessor's result and
    differ only in the successor's slot; the outcomes differ, for the Leaky
    ReLU node and for the Sigmoid node. *)
Lemma backward_depends_on_successor_slot :
  deltas_after
    (ailayer_leaky_relu_backward 2 (ex_leaky_state [1; 1; 1]%Q [1; 1; 1]%Q)) 2
  = Some [1 # 10; 1; 1]%Q ∧
  deltas_after
    (ailayer_leaky_relu_backward 2 (ex_leaky_state [1; 1; 1]%Q [2; 2; 2]%Q)) 2
  = Some [2 # 10; 2; 2]%Q ∧
  deltas_after
    (ailayer_sigmoid_backward ex_sizeof_tensor_params ex_sizeof_tensor_data
       [] [] 2 (ex_sigmoid_state_Q [1; 1; 1]%Q [1; 1; 1]%Q)) 2
  = Some [-2; 0; -12]%Q ∧
  deltas_after
    (ailayer_sigmoid_backward ex_sizeof_tensor_params ex_sizeof_tensor_data
       [] [] 2 (ex_sigmoid_state_Q [1; 1; 1]%Q [2; 2; 2]%Q)) 2
  = Some [-4; 0; -24]%Q.
Proof. repeat split; vm_compute; reflexivity. Qed.

(** ** Frame of the three layer operations *)

Section Frame.

Context {E : Type}.
Variable aimath_sizeof_tensor_params : gmap N (list Z) → aitensor_t → N.
Variable aimath_sizeof_tensor_data : gmap N (list Z) → aitensor_t → N.
Implicit Types (st : state E) (b inl outl : ailayer_t) (m : memory E).

Lemma writes_only_trans (res : aitensor_t) m m1 m2 :
  writes_only res m m1 → writes_only res m1 m2 → writes_only res m m2.
Proof.
  intros [Hs1 Hb1] [Hs2 Hb2]. split; [congruence|].
  intros q Hq Hq'. rewrite Hb2, Hb1 by done. done.
Qed.

(** The Sigmoid backward pass with kernels that obey the contract writes
    nothing but the storage of the node's gradient slot. *)
Lemma sigmoid_backward_writes_only jp jd (x_in delta_out delta_in : aitensor_t)
    m (ks kd : kernel_unary E) (km : kernel_binary E) :
  unary_frame ks → unary_frame kd → binary_frame km →
  let frame := sigmoid_backward_locals aimath_sizeof_tensor_params
                 aimath_sizeof_tensor_data jp jd x_in m in
  let scratch := frame.1 in
  let m0 := frame.2 in
  writes_only delta_in m
    (sigmoid_backward_return scratch
       (km scratch delta_out delta_in
          (kd scratch scratch (ks x_in scratch m0)))).
Proof.
  intros Hks Hkd Hkm.
  destruct (sigmoid_backward_locals_spec aimath_sizeof_tensor_params
              aimath_sizeof_tensor_data jp jd x_in m)
    as (p1 & p2 & m0 & -> & Hne & Hp1 & Hp2 & _ & _ & Hsh & Hfr).
  cbn [fst snd]. cbv zeta.
  set (scratch := {| dtype := _; dim := _; shape := _; tensor_params := p1; data := p2 |}).
  destruct (Hks x_in scratch m0) as [Hs1 Hb1].
  set (m1 := ks x_in scratch m0) in *.
  destruct (Hkd scratch scratch m1) as [Hs2 Hb2].
  set (m2 := kd scratch scratch m1) in *.
  destruct (Hkm scratch delta_out delta_in m2) as [Hs3 Hb3].
  set (m3 := km scratch delta_out delta_in m2) in *.
  split.
  { unfold sigmoid_backward_return; cbn [shapes release_block]. congruence. }
  intros q Hq Hq'. unfold sigmoid_backward_return; cbn [data tensor_params scratch].
  destruct (decide (q = p1)) as [->|Hq1].
  { by rewrite blocks_release_eq, Hp1. }
  rewrite blocks_release_ne by done.
  destruct (decide (q = p2)) as [->|Hq2].
  { by rewrite blocks_release_eq, Hp2. }
  rewrite blocks_release_ne by done.
  rewrite Hb3, Hb2, Hb1 by done. by apply Hfr.
Qed.

(** C7.  On a wired node of either kind whose installed kernels write
    nothing but the storage of their output tensor, forward, backward and
    calc_result_shape succeed and leave the whole object table unchanged
    (every link and every dtype, dimensionality and shape pointer of every
    tensor descriptor), leave all shape arrays unchanged, and change no
    block other than the storage of the node's own result tensor (forward)
    or gradient tensor (backward); calc_result_shape returns the state it
    was given. *)
Theorem layer_ops_frame a (op : layer_op E) (self : ptr) st :
  node_ready a st self →
  (∀ p o, objs st !! p = Some o → kernels_frame o) →
  ∃ b st',
    load_base self st = Some b ∧
    run_op aimath_sizeof_tensor_params
      aimath_sizeof_tensor_data a op self st = Some st' ∧
    objs st' = objs st ∧
    shapes (mem st') = shapes (mem st) ∧
    (∀ q, (∀ t, owned_tensor op b = Some t →
                q ≠ data t ∧ q ≠ tensor_params t) →
          blocks (mem st') !! q = blocks (mem st) !! q) ∧
    (op = op_calc_result_shape → st' = st).
Proof.
  intros (b & cfg & inl & outl & Hb & Hcfg & Hk & Hin & Hout) Hfr.
  specialize (Hfr _ _ Hcfg).
  exists b.
  destruct a, cfg as [?|l|l]; try done;
    destruct Hk as ([k1 Hk1] & [k2 Hk2] & [k3 Hk3]);
    destruct Hfr as (Hf1 & Hf2 & Hf3);
    rewrite Hk1 in Hf1; rewrite Hk2 in Hf2; rewrite Hk3 in Hf3;
    cbn [installed] in Hf1, Hf2, Hf3;
    destruct op as [|jp jd|]; cbn [run_op layer_forward layer_backward
                                    layer_calc_result_shape owned_tensor].
  - (* Leaky ReLU forward *)
    unfold ailayer_leaky_relu_forward.
    rewrite Hb; cbn [mbind option_bind].
    rewrite Hcfg; cbn [mbind option_bind as_leaky_relu].
    rewrite Hin; cbn [mbind option_bind]. rewrite Hk1; cbn [mbind option_bind].
    eexists. split; [done|]. split; [reflexivity|]. cbn [set_mem objs mem].
    destruct (Hf1 (result inl) (alpha l) (result b) (mem st)) as [Hs Hbl].
    split; [done|]. split; [done|]. split; [|done].
    intros q Hq. destruct (Hq _ eq_refl). by apply Hbl.
  - (* Leaky ReLU backward *)
    rewrite (ailayer_leaky_relu_backward_eq self st b l outl inl k2 k3)
      by done.
    eexists. split; [done|]. split; [reflexivity|]. cbn [set_mem objs mem].
    destruct (writes_only_trans (deltas b) _ _ _
                (Hf2 (result inl) (alpha l) (deltas b) (mem st))
                (Hf3 (deltas b) (deltas outl) (deltas b) _)) as [Hs Hbl].
    split; [done|]. split; [done|]. split; [|done].
    intros q Hq. destruct (Hq _ eq_refl). by apply Hbl.
  - (* Leaky ReLU calc_result_shape *)
    exists st. by cbn.
  - (* Sigmoid forward *)
    unfold ailayer_sigmoid_forward.
    rewrite Hb; cbn [mbind option_bind].
    rewrite Hcfg; cbn [mbind option_bind as_sigmoid].
    rewrite Hin; cbn [mbind option_bind]. rewrite Hk1; cbn [mbind option_bind].
    eexists. split; [done|]. split; [reflexivity|]. cbn [set_mem objs mem].
    destruct (Hf1 (result inl) (result b) (mem st)) as [Hs Hbl].
    split; [done|]. split; [done|]. split; [|done].
    intros q Hq. destruct (Hq _ eq_refl). by apply Hbl.
  - (* Sigmoid backward *)
    rewrite (ailayer_sigmoid_backward_eq _ _ jp jd self st b l outl inl
               k1 k2 k3) by done.
    eexists. split; [done|]. split; [reflexivity|]. cbn [set_mem objs mem].
    destruct (sigmoid_backward_writes_only jp jd (result inl) (deltas outl)
                (deltas b) (mem st) k1 k2 k3 Hf1 Hf2 Hf3) as [Hs Hbl].
    split; [done|]. split; [done|]. split; [|done].
    intros q Hq. destruct (Hq _ eq_refl). by apply Hbl.
  - (* Sigmoid calc_result_shape *)
    exists st. by cbn.
Qed.

End Frame.

(** The example chains satisfy the hypotheses of C7. *)
Lemma ex_leaky_state_ready ds gs : node_ready LeakyReLU (ex_leaky_state ds gs) 2.
Proof.
  exists (ex_node LeakyReLU), (obj_leaky_relu (ex_leaky_relu (ex_node LeakyReLU))),
    (set_output_layer 2 (ex_pred 8 2)), ex_succ.
  repeat split; by eexists.
Qed.

Lemma ex_leaky_state_frame ds gs p (o : object Q) :
  objs (ex_leaky_state ds gs) !! p = Some o → kernels_frame o.
Proof.
  unfold ex_leaky_state, ex_state; cbn [objs]. intros Hp.
  apply lookup_insert_Some in Hp as [[_ <-]|[_ Hp]]; [exact I|].
  apply lookup_insert_Some in Hp as [[_ <-]|[_ Hp]].
  { repeat split; [apply elementwise_scalar_frame ..
                  | apply elementwise_multiply_frame]. }
  apply lookup_singleton_Some in Hp as [_ <-]. exact I.
Qed.

(** C7 on the Leaky ReLU example chain, for the backward pass. *)
Lemma layer_ops_frame_witness :
  ∃ b st',
    load_base 2 (ex_leaky_state [7; 7; 7]%Q [1; 1; 1]%Q) = Some b ∧
    run_op ex_sizeof_tensor_params ex_sizeof_tensor_data LeakyReLU
      (op_backward (E:=Q) [] []) 2 (ex_leaky_state [7; 7; 7]%Q [1; 1; 1]%Q)
      = Some st' ∧
    objs st' = objs (ex_leaky_state [7; 7; 7]%Q [1; 1; 1]%Q) ∧
    shapes (mem st') = shapes (mem (ex_leaky_state [7; 7; 7]%Q [1; 1; 1]%Q)) ∧
    (∀ q, (∀ t, owned_tensor (op_backward (E:=Q) [] []) b = Some t →
                q ≠ data t ∧ q ≠ tensor_params t) →
          blocks (mem st') !! q
          = blocks (mem (ex_leaky_state [7; 7; 7]%Q [1; 1; 1]%Q)) !! q) ∧
    (op_backward [] [] = op_calc_result_shape (E:=Q) →
     st' = ex_leaky_state [7; 7; 7]%Q [1; 1; 1]%Q).
Proof.
  exact (layer_ops_frame ex_sizeof_tensor_params ex_sizeof_tensor_data
           LeakyReLU (op_backward (E:=Q) [] []) 2
           (ex_leaky_state [7; 7; 7]%Q [1; 1; 1]%Q)
           (ex_leaky_state_ready _ _) (ex_leaky_state_frame _ _)).
Defined.

(** ** Repeated Sigmoid backward passes *)

Section Repeatable.

Context {E : Type}.
Variable aimath_sizeof_tensor_params : gmap N (list Z) → aitensor_t → N.
Variable aimath_sizeof_tensor_data : gmap N (list Z) → aitensor_t → N.
Implicit Types (st : state E) (b inl outl : ailayer_t) (m : memory E).

(** After any number of calls nothing but the node's gradient slot differs
    from the start, and after at least one call the slot holds the
    chain-rule product. *)
Lemma sigmoid_backward_n_spec junk n (self : ptr) st b l outl inl fs fd mul :
  load_base self st = Some b →
  objs st !! layer_configuration b = Some (obj_sigmoid l) →
  load_base (output_layer b) st = Some outl →
  load_base (input_layer b) st = Some inl →
  sigmoid l = Some (elementwise fs) →
  d_sigmoid l = Some (elementwise fd) →
  sigm_multiply l = Some (elementwise_multiply mul) →
  tensor_live (mem st) (result inl) →
  tensor_live (mem st) (deltas outl) →
  tensor_live (mem st) (deltas b) →
  data (deltas b) ≠ data (result inl) →
  data (deltas b) ≠ data (deltas outl) →
  ∃ stn,
    sigmoid_backward_n aimath_sizeof_tensor_params
      aimath_sizeof_tensor_data junk n self st = Some stn ∧
    objs stn = objs st ∧
    is_Some (blocks (mem stn) !! data (deltas b)) ∧
    (∀ q, q ≠ data (deltas b) →
          blocks (mem stn) !! q = blocks (mem st) !! q) ∧
    (n ≠ 0%nat →
     load_elems (mem stn) (data (deltas b))
       = zip_with mul
           (fd <$> (fs <$> load_elems (mem st) (data (result inl))))
           (load_elems (mem st) (data (deltas outl)))).
Proof.
  intros Hb Hl Hout Hin Hs Hd Hm Hx Hg Hdl Hnx Hng.
  induction n as [|n (stn & Hrun & Hobjs & Hlive & Hframe & _)].
  { exists st. by cbn. }
  cbn [sigmoid_backward_n]. rewrite Hrun; cbn [mbind option_bind].
  destruct (sigmoid_backward_formula aimath_sizeof_tensor_params
              aimath_sizeof_tensor_data (junk n).1 (junk n).2 self stn
              b l outl inl fs fd mul)
    as (st' & Hrun' & Hobjs' & _ & Hval & Hlive' & Hframe');
    unfold load_base, tensor_live in *; rewrite ?Hobjs, ?Hframe by done;
    try done.
  exists st'. split; [done|]. split; [congruence|]. split; [done|].
  split.
  { intros q Hq. rewrite Hframe', Hframe by done. done. }
  intros _. rewrite Hval.
  by rewrite !(load_elems_ext (mem st) (mem stn)) by (apply Hframe; done).
Qed.

(** C8.  For a Sigmoid node with elementwise kernels whose gradient slot
    does not share storage with the predecessor's result or the successor's
    gradient: any number [n + 1] of backward calls in a row, whatever junk
    each call finds in its scratch arrays, succeeds and leaves in the
    node's gradient slot the same contents as any other number [k + 1] of
    calls with any other junk, namely the chain-rule product of the fixed
    inputs. *)
Theorem sigmoid_backward_repeatable junk junk' n k (self : ptr) st b l outl
    inl fs fd mul :
  load_base self st = Some b →
  objs st !! layer_configuration b = Some (obj_sigmoid l) →
  load_base (output_layer b) st = Some outl →
  load_base (input_layer b) st = Some inl →
  sigmoid l = Some (elementwise fs) →
  d_sigmoid l = Some (elementwise fd) →
  sigm_multiply l = Some (elementwise_multiply mul) →
  tensor_live (mem st) (result inl) →
  tensor_live (mem st) (deltas outl) →
  tensor_live (mem st) (deltas b) →
  data (deltas b) ≠ data (result inl) →
  data (deltas b) ≠ data (deltas outl) →
  ∃ stn stk,
    sigmoid_backward_n aimath_sizeof_tensor_params
      aimath_sizeof_tensor_data junk (S n) self st = Some stn ∧
    sigmoid_backward_n aimath_sizeof_tensor_params
      aimath_sizeof_tensor_data junk' (S k) self st = Some stk ∧
    load_elems (mem stn) (data (deltas b))
      = load_elems (mem stk) (data (deltas b)) ∧
    load_elems (mem stn) (data (deltas b))
      = zip_with mul
          (fd <$> (fs <$> load_elems (mem st) (data (result inl))))
          (load_elems (mem st) (data (deltas outl))).
Proof.
  intros Hb Hl Hout Hin Hs Hd Hm Hx Hg Hdl Hnx Hng.
  destruct (sigmoid_backward_n_spec junk (S n) self st b l outl inl fs fd mul)
    as (stn & Hrun & _ & _ & _ & Hval); try done.
  destruct (sigmoid_backward_n_spec junk' (S k) self st b l outl inl fs fd mul)
    as (stk & Hrun' & _ & _ & _ & Hval'); try done.
  exists stn, stk. split; [done|]. split; [done|].
  rewrite Hval, Hval' by done. done.
Qed.

End Repeatable.

(** C8 on the example chain: three calls against one call, with different
    junk in the scratch arrays. *)
Lemma sigmoid_backward_repeatable_witness :
  ∃ stn stk,
    sigmoid_backward_n ex_sizeof_tensor_params ex_sizeof_tensor_data
      (λ i, ([], [inject_Z (Z.of_nat i)])) 3 2
      (ex_sigmoid_state_Q [7; 7; 7]%Q [1; 1; 1]%Q) = Some stn ∧
    sigmoid_backward_n ex_sizeof_tensor_params ex_sizeof_tensor_data
      (λ _, ([5%Q], [])) 1 2
      (ex_sigmoid_state_Q [7; 7; 7]%Q [1; 1; 1]%Q) = Some stk ∧
    load_elems (mem stn) 12 = load_elems (mem stk) 12 ∧
    load_elems (mem stn) 12 = [-2; 0; -12]%Q.
Proof.
  refine (sigmoid_backward_repeatable ex_sizeof_tensor_params
            ex_sizeof_tensor_data
            (λ i, ([], [inject_Z (Z.of_nat i)])) (λ _, ([5%Q], [])) 2 0 2
            (ex_sigmoid_state_Q [7; 7; 7]%Q [1; 1; 1]%Q)
            (ex_node Sigmoid) (ex_sigmoid_Q (ex_node Sigmoid))
            ex_succ (set_output_layer 2 (ex_pred 8 2)) _ _ _
            eq_refl eq_refl eq_refl eq_refl eq_refl eq_refl eq_refl
            _ _ _ _ _); first [ by eexists | discriminate ].
Defined.

(** ** The forward passes *)

Section Forward.

Context {E : Type}.
Implicit Types (st : state E) (b inl : ailayer_t) (m : memory E).

Lemma sigmoid_forward_formula (self : ptr) st b l inl fs :
  load_base self st = Some b →
  objs st !! layer_configuration b = Some (obj_sigmoid l) →
  load_base (input_layer b) st = Some inl →
  sigmoid l = Some (elementwise fs) →
  tensor_live (mem st) (result b) →
  result_after (ailayer_sigmoid_forward self st) self
    = Some (fs <$> load_elems (mem st) (data (result inl))).
Proof.
  intros Hb Hl Hin Hs Hlive. unfold ailayer_sigmoid_forward.
  rewrite Hb; cbn [mbind option_bind].
  rewrite Hl; cbn [mbind option_bind as_sigmoid].
  rewrite Hin; cbn [mbind option_bind]. rewrite Hs; cbn [mbind option_bind].
  unfold result_after; cbn [mbind option_bind].
  change (load_base self (set_mem _ st)) with (load_base self st).
  rewrite Hb; cbn [mbind option_bind set_mem mem]. f_equal.
  by apply load_elems_store_eq.
Qed.

Lemma leaky_relu_forward_formula (self : ptr) st b l inl f a rest :
  load_base self st = Some b →
  objs st !! layer_configuration b = Some (obj_leaky_relu l) →
  load_base (input_layer b) st = Some inl →
  leaky_relu l = Some (elementwise_scalar f) →
  load_elems (mem st) (alpha l) = a :: rest →
  tensor_live (mem st) (result b) →
  result_after (ailayer_leaky_relu_forward self st) self
    = Some (f a <$> load_elems (mem st) (data (result inl))).
Proof.
  intros Hb Hl Hin Hs Hal Hlive. unfold ailayer_leaky_relu_forward.
  rewrite Hb; cbn [mbind option_bind].
  rewrite Hl; cbn [mbind option_bind as_leaky_relu].
  rewrite Hin; cbn [mbind option_bind]. rewrite Hs; cbn [mbind option_bind].
  unfold result_after; cbn [mbind option_bind].
  change (load_base self (set_mem _ st)) with (load_base self st).
  rewrite Hb; cbn [mbind option_bind set_mem mem]. f_equal.
  unfold elementwise_scalar. rewrite Hal.
  by apply load_elems_store_eq.
Qed.

End Forward.

(** ** The Leaky ReLU kernels *)

(** C6.  For every slope alpha and every element x the Leaky ReLU activate
    kernel returns alpha * x when x < 0 and x when x >= 0, and the
    derivative kernel returns alpha when x < 0 and 1 when x >= 0; at x = 0
    both take the non-negative branch (activate gives 0, the derivative
    gives 1).  The tensor kernels apply these functions to every element of
    the input tensor, and so does the forward pass of the layer. *)
Theorem leaky_relu_kernel_cases :
  (∀ slope x : Q,
     ((x < 0)%Q → leaky_relu_scalar slope x = (slope * x)%Q ∧
                  d_leaky_relu_scalar slope x = slope) ∧
     ((0 <= x)%Q → leaky_relu_scalar slope x = x ∧
                   d_leaky_relu_scalar slope x = 1%Q)) ∧
  (∀ slope : Q,
     leaky_relu_scalar slope 0 = 0%Q ∧ d_leaky_relu_scalar slope 0 = 1%Q) ∧
  (∀ (x : aitensor_t) (al : ptr) (res : aitensor_t) (m : memory Q) slope rest,
     load_elems m al = slope :: rest →
     tensor_live m res →
     load_elems (leaky_relu_kernel x al res m) (data res)
       = leaky_relu_scalar slope <$> load_elems m (data x) ∧
     load_elems (d_leaky_relu_kernel x al res m) (data res)
       = d_leaky_relu_scalar slope <$> load_elems m (data x)) ∧
  (∀ (self : ptr) (st : state Q) b l inl slope rest,
     load_base self st = Some b →
     objs st !! layer_configuration b = Some (obj_leaky_relu l) →
     load_base (input_layer b) st = Some inl →
     leaky_relu l = Some leaky_relu_kernel →
     load_elems (mem st) (alpha l) = slope :: rest →
     tensor_live (mem st) (result b) →
     result_after (ailayer_leaky_relu_forward self st) self
       = Some (leaky_relu_scalar slope
                 <$> load_elems (mem st) (data (result inl)))).
Proof.
  split.
  { intros slope x. unfold leaky_relu_scalar, d_leaky_relu_scalar.
    destruct (Qlt_le_dec x 0) as [Hlt|Hle]; split; intros H; try done.
    - exfalso. apply (Qlt_irrefl x). by eapply Qlt_le_trans.
    - exfalso. apply (Qlt_irrefl x). by eapply Qlt_le_trans. }
  split; [done|]. split.
  { intros x al res m slope rest Hal Hlive.
    unfold leaky_relu_kernel, d_leaky_relu_kernel, elementwise_scalar.
    rewrite Hal. split; by apply load_elems_store_eq. }
  intros self st b l inl slope rest Hb Hl Hin Hk Hal Hlive.
  by apply (leaky_relu_forward_formula self st b l inl _ slope rest).
Qed.

(** C6 at alpha = 0.1: the elements -2, 0 and 3, and the forward pass of
    the example chain. *)
Lemma leaky_relu_kernel_cases_witness :
  leaky_relu_scalar (1 # 10) (-2) = ((1 # 10) * -2)%Q ∧
  d_leaky_relu_scalar (1 # 10) (-2) = (1 # 10)%Q ∧
  leaky_relu_scalar (1 # 10) 3 = 3%Q ∧
  d_leaky_relu_scalar (1 # 10) 3 = 1%Q ∧
  leaky_relu_scalar (1 # 10) 0 = 0%Q ∧
  d_leaky_relu_scalar (1 # 10) 0 = 1%Q ∧
  result_after
    (ailayer_leaky_relu_forward 2 (ex_leaky_state [7; 7; 7]%Q [1; 1; 1]%Q)) 2
  = Some (leaky_relu_scalar (1 # 10) <$> [-2; 0; 3]%Q).
Proof.
  destruct leaky_relu_kernel_cases as (Hcases & Hzero & _ & Hfwd).
  destruct (proj1 (Hcases (1 # 10) (-2)%Q) eq_refl) as [H1 H2].
  destruct (proj2 (Hcases (1 # 10) 3%Q)) as [H3 H4]; [discriminate|].
  destruct (Hzero (1 # 10)) as [H5 H6].
  do 6 (split; [assumption|]).
  refine (Hfwd 2%N (ex_leaky_state [7; 7; 7]%Q [1; 1; 1]%Q)
            (ex_node LeakyReLU) (ex_leaky_relu (ex_node LeakyReLU))
            (set_output_layer 2 (ex_pred 8 2)) (1 # 10) []
            eq_refl eq_refl eq_refl eq_refl eq_refl _).
  by eexists.
Defined.

(** ** The Sigmoid kernels *)

Local Open Scope R_scope.

Lemma sigmoid_scalar_bounds x : 0 < sigmoid_scalar x < 1.
Proof.
  unfold sigmoid_scalar. pose proof (exp_pos (- x)) as He.
  set (e := exp (- x)) in *.
  assert (Hy : 0 < / (1 + e)) by (apply Rinv_0_lt_compat; lra).
  assert (Heq : (1 + e) * / (1 + e) = 1) by (apply Rinv_r; lra).
  unfold Rdiv. rewrite Rmult_1_l. split; [exact Hy|]. nra.
Qed.

Lemma sigmoid_scalar_0 : sigmoid_scalar 0 = 1 / 2.
Proof. unfold sigmoid_scalar. rewrite Ropp_0, exp_0. lra. Qed.

(** C9.  Over the reals: Sigmoid(x) lies strictly between 0 and 1 for every
    x, Sigmoid(0) is 1/2, and the derivative kernel applied to Sigmoid(x)
    is Sigmoid(x) (1 - Sigmoid(x)).  Hence on a Sigmoid node with these
    kernels, predecessor result [0] and successor gradient [1], the forward
    pass leaves [1/2] in the result and the backward pass leaves [1/4] in
    the gradient slot. *)
Theorem sigmoid_kernel_properties :
  (∀ x, 0 < sigmoid_scalar x < 1) ∧
  sigmoid_scalar 0 = 1 / 2 ∧
  (∀ x, d_sigmoid_scalar (sigmoid_scalar x)
        = sigmoid_scalar x * (1 - sigmoid_scalar x)) ∧
  (∀ sp sd jp jd (self : ptr) (st : state R) b l outl inl,
     load_base self st = Some b →
     objs st !! layer_configuration b = Some (obj_sigmoid l) →
     load_base (output_layer b) st = Some outl →
     load_base (input_layer b) st = Some inl →
     sigmoid l = Some sigmoid_kernel →
     d_sigmoid l = Some d_sigmoid_kernel →
     sigm_multiply l = Some multiply_kernel_R →
     tensor_live (mem st) (result b) →
     tensor_live (mem st) (deltas b) →
     tensor_live (mem st) (result inl) →
     tensor_live (mem st) (deltas outl) →
     load_elems (mem st) (data (result inl)) = [0] →
     load_elems (mem st) (data (deltas outl)) = [1] →
     result_after (ailayer_sigmoid_forward self st) self = Some [1 / 2] ∧
     deltas_after (ailayer_sigmoid_backward sp sd jp jd self st) self
       = Some [1 / 4]).
Proof.
  split; [exact sigmoid_scalar_bounds|].
  split; [exact sigmoid_scalar_0|].
  split; [reflexivity|].
  intros sp sd jp jd self st b l outl inl Hb Hl Hout Hin Hs Hd Hm
    Hres Hdl Hx Hg Hxs Hgs.
  split.
  - rewrite (sigmoid_forward_formula self st b l inl sigmoid_scalar) by done.
    rewrite Hxs. cbn. by rewrite sigmoid_scalar_0.
  - destruct (sigmoid_backward_formula sp sd jp jd self st b l outl inl
                sigmoid_scalar d_sigmoid_scalar Rmult)
      as (st' & Hrun & Hobjs & _ & Hval & _); try done.
    rewrite (deltas_after_Some _ st' self b st Hrun Hobjs Hb).
    rewrite Hval, Hxs, Hgs. cbn. rewrite sigmoid_scalar_0.
    do 2 f_equal. unfold d_sigmoid_scalar. lra.
Qed.

(** C9 on the example chain of scenario B. *)
Lemma sigmoid_kernel_properties_witness :
  result_after (ailayer_sigmoid_forward 2 ex_sigmoid_state) 2
    = Some [1 / 2] ∧
  deltas_after
    (ailayer_sigmoid_backward ex_sizeof_tensor_params ex_sizeof_tensor_data
       [] [] 2 ex_sigmoid_state) 2
    = Some [1 / 4].
Proof.
  refine (proj2 (proj2 (proj2 sigmoid_kernel_properties))
            ex_sizeof_tensor_params ex_sizeof_tensor_data [] [] 2%N
            ex_sigmoid_state
            (ex_node Sigmoid) (ex_sigmoid (ex_node Sigmoid))
            ex_succ (set_output_layer 2 (ex_pred 8 2))
            eq_refl eq_refl eq_refl eq_refl eq_refl eq_refl eq_refl
            _ _ _ _ eq_refl eq_refl); by eexists.
Defined.

(** * Additional properties *)

Local Close Scope R_scope.

(** ** More on the initializers *)

Section InitializerFacts.

Context {E : Type}.
Implicit Types (st : state E) (o : object E) (M : gmap N (object E)).

Lemma load_base_here p o M (m : memory E) :
  load_base p {| objs := <[p := o]> M; mem := m |} = Some (base_of o).
Proof. unfold load_base; cbn. by rewrite lookup_insert_eq. Qed.

Lemma map_base_map_base f g o :
  map_base f (map_base g o) = map_base (λ b, f (g b)) o.
Proof. by destruct o. Qed.

Lemma configured_dtype_map_base f o :
  configured_dtype (map_base f o) = configured_dtype o.
Proof. by destruct o. Qed.

Lemma is_activation_map_base a f o :
  is_activation a (map_base f o) ↔ is_activation a o.
Proof. by destruct a, o. Qed.

Lemma same_configuration_map_base f o : same_configuration o (map_base f o).
Proof. destruct o as [b|l|l]; cbn; done. Qed.

Lemma two_cells_twice (p q : ptr) (x1 x2 y1 y2 : object E) M :
  p ≠ q →
  <[p := x2]> (<[q := y2]> (<[p := x1]> (<[q := y1]> M)))
  = <[p := x2]> (<[q := y2]> M).
Proof.
  intros Hne. apply map_eq. intros i.
  rewrite !lookup_insert. repeat case_decide; congruence.
Qed.

(** X1.  An initializer call touches nothing but the node's base and the
    predecessor's forward-reference: memory is unchanged, every other layer
    struct is unchanged, the predecessor differs only in [output_layer],
    and the node keeps its configuration ([dtype], [alpha], kernels), its
    own [output_layer] and the storage pointers of both its tensors. *)
Theorem initializer_frame a (layer pred : ptr) st o o_in :
  layer ≠ pred →
  objs st !! layer = Some o →
  is_activation a o →
  objs st !! pred = Some o_in →
  ∃ st' o',
    initializer a layer pred st = Some (layer, st') ∧
    mem st' = mem st ∧
    (∀ q, q ≠ layer → q ≠ pred → objs st' !! q = objs st !! q) ∧
    objs st' !! pred = Some (map_base (set_output_layer layer) o_in) ∧
    objs st' !! layer = Some o' ∧
    same_configuration o o' ∧
    output_layer (base_of o') = output_layer (base_of o) ∧
    same_storage (result (base_of o)) (result (base_of o')) ∧
    same_storage (deltas (base_of o)) (deltas (base_of o')).
Proof.
  intros Hne Hl Ha Hin.
  destruct (initializer_eq a layer pred st o o_in Hne Hl Ha Hin)
    as (d & Hd & ->).
  eexists _, _. split; [reflexivity|]. cbn [objs mem].
  split; [done|]. split.
  { intros q Hq1 Hq2. by rewrite !lookup_insert_ne. }
  split. { rewrite lookup_insert_ne by done. by rewrite lookup_insert_eq. }
  split. { by rewrite lookup_insert_eq. }
  split. { apply same_configuration_map_base. }
  rewrite base_of_map_base. by cbn.
Qed.

(** X2.  Initializing a node a second time with the same predecessor
    changes nothing: the second call succeeds and returns the state the
    first one left. *)
Theorem initializer_idempotent a (layer pred : ptr) st o o_in :
  layer ≠ pred →
  objs st !! layer = Some o →
  is_activation a o →
  objs st !! pred = Some o_in →
  ∃ st',
    initializer a layer pred st = Some (layer, st') ∧
    initializer a layer pred st' = Some (layer, st').
Proof.
  intros Hne Hl Ha Hin.
  destruct (initializer_eq a layer pred st o o_in Hne Hl Ha Hin)
    as (d & Hd & ->).
  eexists. split; [reflexivity|].
  set (o1 := map_base (init_base a d layer pred (result (base_of o_in))) o).
  set (p1 := map_base (set_output_layer layer) o_in).
  destruct (initializer_eq a layer pred
              {| objs := <[layer := o1]> (<[pred := p1]> (objs st));
                 mem := mem st |} o1 p1 Hne) as (d' & Hd' & ->).
  { cbn. by rewrite lookup_insert_eq. }
  { by apply is_activation_map_base. }
  { cbn. rewrite lookup_insert_ne by done. by rewrite lookup_insert_eq. }
  subst o1. rewrite configured_dtype_map_base in Hd'.
  assert (d' = d) as -> by congruence.
  cbn [objs mem]. rewrite (two_cells_twice layer pred) by done.
  subst p1. rewrite base_of_map_base, !map_base_map_base.
  reflexivity.
Qed.


(** X3.  Two initializer calls in construction order build a doubly linked
    chain: after node [a] is initialized on [p] and node [b] on [a], [p]
    points forward to [a], [a] back to [p] and forward to [b], [b] back to
    [a]; the result and gradient tensors of both nodes hold the shape
    pointer of the result of [p], both results have its dimensionality,
    and the callbacks of [a] are those its own initializer installed. *)
Theorem initializer_chain ka kb (p a b : ptr) st o_p o_a o_b :
  p ≠ a → p ≠ b → a ≠ b →
  objs st !! p = Some o_p →
  objs st !! a = Some o_a → is_activation ka o_a →
  objs st !! b = Some o_b → is_activation kb o_b →
  ∃ st1 st2 bp ba bb,
    initializer ka a p st = Some (a, st1) ∧
    initializer kb b a st1 = Some (b, st2) ∧
    load_base p st2 = Some bp ∧
    load_base a st2 = Some ba ∧
    load_base b st2 = Some bb ∧
    output_layer bp = a ∧ input_layer ba = p ∧
    output_layer ba = b ∧ input_layer bb = a ∧
    result bp = result (base_of o_p) ∧
    shape (result ba) = shape (result bp) ∧
    shape (deltas ba) = shape (result bp) ∧
    shape (result bb) = shape (result bp) ∧
    shape (deltas bb) = shape (result bp) ∧
    dim (result ba) = dim (result bp) ∧
    dim (result bb) = dim (result bp) ∧
    forward ba = forward_fn ka ∧ backward ba = backward_fn ka ∧
    calc_result_shape ba = calc_result_shape_fn ka ∧
    mem st2 = mem st.
Proof.
  intros Hpa Hpb Hab Hp Ha Hka Hb Hkb.
  destruct (initializer_eq ka a p st o_a o_p) as (da & Hda & ->); try done.
  set (a1 := map_base (init_base ka da a p (result (base_of o_p))) o_a).
  set (p1 := map_base (set_output_layer a) o_p).
  destruct (initializer_eq kb b a
              {| objs := <[a := a1]> (<[p := p1]> (objs st));
                 mem := mem st |} o_b a1) as (db & Hdb & H2); try done.
  { cbn. by rewrite !lookup_insert_ne. }
  { cbn. by rewrite lookup_insert_eq. }
  eexists _, _, _, _, _.
  split; [reflexivity|]. split; [exact H2|].
  unfold load_base; cbn [objs mem].
  rewrite (lookup_insert_ne _ b p), (lookup_insert_ne _ a p) by done.
  rewrite (lookup_insert_ne _ a p), (lookup_insert_ne _ b a) by done.
  rewrite !lookup_insert_eq. cbn [fmap option_fmap option_map].
  split; [reflexivity|]. split; [reflexivity|]. split; [reflexivity|].
  subst a1 p1. rewrite !base_of_map_base. by cbn.
Qed.

Lemma ailayer_sigmoid_cell (layer : ptr) M (m : memory E) l :
  ailayer_sigmoid layer layer
    {| objs := <[layer := obj_sigmoid l]> M; mem := m |} =
  Some (layer,
        {| objs :=
             <[layer := map_base
                          (λ b, init_base Sigmoid (sigm_dtype l) layer layer
                                  (result b) (set_output_layer layer b))
                          (obj_sigmoid l)]> M;
           mem := m |}).
Proof.
  unfold ailayer_sigmoid.
  repeat first
   [ rewrite store_base_here
   | rewrite load_base_here
   | rewrite lookup_insert_eq
   | progress cbn [mbind option_bind map_base as_sigmoid base_of objs mem
                   sigm_base sigm_dtype sigmoid d_sigmoid sigm_multiply] ].
  by destruct l as [[] ? ? ? ?].
Qed.

Lemma ailayer_leaky_relu_cell (layer : ptr) M (m : memory E) l :
  ailayer_leaky_relu layer layer
    {| objs := <[layer := obj_leaky_relu l]> M; mem := m |} =
  Some (layer,
        {| objs :=
             <[layer := map_base
                          (λ b, init_base LeakyReLU (lrelu_dtype l) layer layer
                                  (result b) (set_output_layer layer b))
                          (obj_leaky_relu l)]> M;
           mem := m |}).
Proof.
  unfold ailayer_leaky_relu.
  repeat first
   [ rewrite store_base_here
   | rewrite load_base_here
   | rewrite lookup_insert_eq
   | progress cbn [mbind option_bind map_base as_leaky_relu base_of objs mem
                   lrelu_base lrelu_dtype alpha leaky_relu d_leaky_relu
                   lrelu_multiply] ].
  by destruct l as [[] ? ? ? ? ?].
Qed.

(** X4.  An initializer called with the node itself as predecessor
    succeeds and closes a loop: the node becomes its own predecessor and
    successor, its result keeps the dimensionality and shape pointer it
    had, and its gradient tensor gets dimensionality 2 and that shape
    pointer; no other struct and no memory changes. *)
Theorem initializer_on_itself a (layer : ptr) st o :
  objs st !! layer = Some o →
  is_activation a o →
  ∃ st' b',
    initializer a layer layer st = Some (layer, st') ∧
    load_base layer st' = Some b' ∧
    input_layer b' = layer ∧ output_layer b' = layer ∧
    dim (result b') = dim (result (base_of o)) ∧
    shape (result b') = shape (result (base_of o)) ∧
    dim (deltas b') = 2%Z ∧
    shape (deltas b') = shape (result (base_of o)) ∧
    configured_dtype o = Some (dtype (result b')) ∧
    forward b' = forward_fn a ∧ backward b' = backward_fn a ∧
    (∀ q, q ≠ layer → objs st' !! q = objs st !! q) ∧
    mem st' = mem st.
Proof.
  intros Hl Ha. destruct st as [M m]; cbn [objs mem] in *.
  destruct a, o as [b|l|l]; try done; cbn [initializer].
  - pose proof (ailayer_leaky_relu_cell layer M m l) as Hrun.
    rewrite (insert_id M layer) in Hrun by done. rewrite Hrun.
    eexists _, _. split; [reflexivity|].
    rewrite load_base_here. split; [reflexivity|]. cbn.
    repeat split; try done. intros q Hq. by rewrite lookup_insert_ne.
  - pose proof (ailayer_sigmoid_cell layer M m l) as Hrun.
    rewrite (insert_id M layer) in Hrun by done. rewrite Hrun.
    eexists _, _. split; [reflexivity|].
    rewrite load_base_here. split; [reflexivity|]. cbn.
    repeat split; try done. intros q Hq. by rewrite lookup_insert_ne.
Qed.

End InitializerFacts.

(** X1 on the uninitialized example chain. *)
Lemma initializer_frame_witness :
  ∃ st' o',
    initializer Sigmoid 2 1 (ex_uninit Sigmoid 9 2) = Some (2%N, st') ∧
    mem st' = mem (ex_uninit Sigmoid 9 2) ∧
    (∀ q, q ≠ 2%N → q ≠ 1%N →
          objs st' !! q = objs (ex_uninit Sigmoid 9 2) !! q) ∧
    objs st' !! 1%N
      = Some (map_base (set_output_layer 2) (obj_layer (ex_pred 9 2))) ∧
    objs st' !! 2%N = Some o' ∧
    same_configuration (ex_raw_node Sigmoid) o' ∧
    output_layer (base_of o') = output_layer (base_of (ex_raw_node Sigmoid)) ∧
    same_storage (result (base_of (ex_raw_node Sigmoid))) (result (base_of o')) ∧
    same_storage (deltas (base_of (ex_raw_node Sigmoid))) (deltas (base_of o')).
Proof.
  apply (initializer_frame Sigmoid 2 1 (ex_uninit Sigmoid 9 2)
           (ex_raw_node Sigmoid) (obj_layer (ex_pred 9 2)));
    [ discriminate | reflexivity | exact I | reflexivity ].
Defined.

(** X2 on the uninitialized example chain. *)
Lemma initializer_idempotent_witness :
  ∃ st',
    initializer LeakyReLU 2 1 (ex_uninit LeakyReLU 9 2) = Some (2%N, st') ∧
    initializer LeakyReLU 2 1 st' = Some (2%N, st').
Proof.
  apply (initializer_idempotent LeakyReLU 2 1 (ex_uninit LeakyReLU 9 2)
           (ex_raw_node LeakyReLU) (obj_layer (ex_pred 9 2)));
    [ discriminate | reflexivity | exact I | reflexivity ].
Defined.

(** X3 on the uninitialized chain of three structs. *)
Lemma initializer_chain_witness :
  ∃ st1 st2 bp ba bb,
    initializer LeakyReLU 2 1 (ex_uninit_chain 2) = Some (2%N, st1) ∧
    initializer Sigmoid 3 2 st1 = Some (3%N, st2) ∧
    load_base 1 st2 = Some bp ∧
    load_base 2 st2 = Some ba ∧
    load_base 3 st2 = Some bb ∧
    output_layer bp = 2%N ∧ input_layer ba = 1%N ∧
    output_layer ba = 3%N ∧ input_layer bb = 2%N ∧
    result bp = result (base_of (obj_layer (E:=Q) (ex_pred 9 2))) ∧
    shape (result ba) = shape (result bp) ∧
    shape (deltas ba) = shape (result bp) ∧
    shape (result bb) = shape (result bp) ∧
    shape (deltas bb) = shape (result bp) ∧
    dim (result ba) = dim (result bp) ∧
    dim (result bb) = dim (result bp) ∧
    forward ba = forward_fn LeakyReLU ∧ backward ba = backward_fn LeakyReLU ∧
    calc_result_shape ba = calc_result_shape_fn LeakyReLU ∧
    mem st2 = mem (ex_uninit_chain 2).
Proof.
  apply (initializer_chain LeakyReLU Sigmoid 1 2 3 (ex_uninit_chain 2)
           (obj_layer (ex_pred 9 2)) (ex_raw_node LeakyReLU)
           (ex_raw_node Sigmoid));
    first [ discriminate | reflexivity | exact I ].
Defined.

(** X4 on the uninitialized example chain. *)
Lemma initializer_on_itself_witness :
  ∃ st' b',
    initializer Sigmoid 2 2 (ex_uninit Sigmoid 9 2) = Some (2%N, st') ∧
    load_base 2 st' = Some b' ∧
    input_layer b' = 2%N ∧ output_layer b' = 2%N ∧
    dim (result b') = dim (result (base_of (ex_raw_node Sigmoid))) ∧
    shape (result b') = shape (result (base_of (ex_raw_node Sigmoid))) ∧
    dim (deltas b') = 2%Z ∧
    shape (deltas b') = shape (result (base_of (ex_raw_node Sigmoid))) ∧
    configured_dtype (ex_raw_node Sigmoid) = Some (dtype (result b')) ∧
    forward b' = forward_fn Sigmoid ∧ backward b' = backward_fn Sigmoid ∧
    (∀ q, q ≠ 2%N → objs st' !! q = objs (ex_uninit Sigmoid 9 2) !! q) ∧
    mem st' = mem (ex_uninit Sigmoid 9 2).
Proof.
  apply (initializer_on_itself Sigmoid 2 (ex_uninit Sigmoid 9 2)
           (ex_raw_node Sigmoid)); [ reflexivity | exact I ].
Defined.

(** ** The exact effect of a pass with elementwise kernels *)

Section PassEffects.

Context {E : Type}.
Variable aimath_sizeof_tensor_params : gmap N (list Z) → aitensor_t → N.
Variable aimath_sizeof_tensor_data : gmap N (list Z) → aitensor_t → N.
Implicit Types (st : state E) (b inl outl : ailayer_t) (m : memory E)
  (cfg : object E) (p q : ptr) (vs ws : list E).

Lemma memory_eq m m' :
  shapes m = shapes m' → blocks m = blocks m' → m = m'.
Proof. destruct m, m'; cbn; by intros -> ->. Qed.

Lemma blocks_store p vs m q :
  blocks (store_elems p vs m) !! q =
  if decide (p = q)
  then (λ k, {| blk_bytes := blk_bytes k; blk_elems := vs |}) <$> blocks m !! q
  else blocks m !! q.
Proof.
  unfold store_elems; cbn. case_decide as Hpq.
  - subst. by rewrite lookup_alter_eq.
  - by rewrite lookup_alter_ne.
Qed.

Lemma store_elems_twice p vs ws m :
  store_elems p vs (store_elems p ws m) = store_elems p vs m.
Proof.
  apply memory_eq; [done|]. apply map_eq. intros q.
  rewrite !blocks_store. case_decide; [|done].
  by destruct (blocks m !! q).
Qed.

Lemma store_elems_comm p q vs ws m :
  p ≠ q →
  store_elems p vs (store_elems q ws m) = store_elems q ws (store_elems p vs m).
Proof.
  intros Hne. apply memory_eq; [done|]. apply map_eq. intros i.
  rewrite !blocks_store. repeat case_decide; congruence.
Qed.

Lemma tensor_live_store p vs m (t : aitensor_t) :
  tensor_live (store_elems p vs m) t ↔ tensor_live m t.
Proof. apply store_live. Qed.

Lemma activates_store p vs m cfg f :
  slope_ptr cfg ≠ Some p →
  activates m cfg f → activates (store_elems p vs m) cfg f.
Proof.
  destruct cfg as [?|l|l]; cbn; try done.
  intros Hp (g & slope & rest & Hk & Hal & ->).
  exists g, slope, rest. split; [done|]. split; [|done].
  rewrite load_elems_store_ne; [done|]. congruence.
Qed.

Lemma differentiates_store p vs m cfg d mul :
  slope_ptr cfg ≠ Some p →
  differentiates m cfg d mul → differentiates (store_elems p vs m) cfg d mul.
Proof.
  destruct cfg as [?|l|l]; cbn; try done.
  intros Hp (g & slope & rest & Hk & Hm & Hal & ->).
  exists g, slope, rest. do 2 (split; [done|]). split; [|done].
  rewrite load_elems_store_ne; [done|]. congruence.
Qed.

(** Forward is one write of the activated input into the result. *)
Lemma layer_forward_store a (self : ptr) st b cfg inl f :
  load_base self st = Some b →
  objs st !! layer_configuration b = Some cfg →
  is_activation a cfg →
  load_base (input_layer b) st = Some inl →
  activates (mem st) cfg f →
  layer_forward a self st
  = Some (overwrite (data (result b))
            (f <$> load_elems (mem st) (data (result inl))) st).
Proof.
  intros Hb Hcfg Ha Hin Hf.
  destruct a, cfg as [?|l|l]; try done; cbn [layer_forward activates] in *.
  - destruct Hf as (g & slope & rest & Hk & Hal & ->).
    unfold ailayer_leaky_relu_forward.
    rewrite Hb; cbn [mbind option_bind].
    rewrite Hcfg; cbn [mbind option_bind as_leaky_relu].
    rewrite Hin; cbn [mbind option_bind]. rewrite Hk; cbn [mbind option_bind].
    unfold elementwise_scalar. by rewrite Hal.
  - unfold ailayer_sigmoid_forward.
    rewrite Hb; cbn [mbind option_bind].
    rewrite Hcfg; cbn [mbind option_bind as_sigmoid].
    rewrite Hin; cbn [mbind option_bind]. by rewrite Hf.
Qed.

(** The Sigmoid backward pass leaves exactly the memory a single write of
    the product into the gradient slot would leave. *)
Lemma sigmoid_backward_memory jp jd (x_in delta_out delta_in : aitensor_t) m
    (fs fd : E → E) (mul : E → E → E) :
  tensor_live m x_in → tensor_live m delta_out → tensor_live m delta_in →
  let frame := sigmoid_backward_locals aimath_sizeof_tensor_params
                 aimath_sizeof_tensor_data jp jd x_in m in
  sigmoid_backward_return frame.1
    (elementwise_multiply mul frame.1 delta_out delta_in
       (elementwise fd frame.1 frame.1
          (elementwise fs x_in frame.1 frame.2)))
  = store_elems (data delta_in)
      (zip_with mul (fd <$> (fs <$> load_elems m (data x_in)))
         (load_elems m (data delta_out))) m.
Proof.
  intros Hx Hg Hd.
  destruct (sigmoid_backward_locals_spec aimath_sizeof_tensor_params
              aimath_sizeof_tensor_data jp jd x_in m)
    as (p1 & p2 & m0 & -> & Hne & Hp1 & Hp2 & Hm1 & Hm2 & Hsh & Hfr).
  cbn [fst snd]. cbv zeta.
  pose proof (live_not_fresh _ _ _ Hx Hp1) as Hx1.
  pose proof (live_not_fresh _ _ _ Hx Hp2) as Hx2.
  pose proof (live_not_fresh _ _ _ Hg Hp1) as Hg1.
  pose proof (live_not_fresh _ _ _ Hg Hp2) as Hg2.
  pose proof (live_not_fresh _ _ _ Hd Hp1) as Hd1.
  pose proof (live_not_fresh _ _ _ Hd Hp2) as Hd2.
  unfold elementwise, elementwise_multiply; cbn [data tensor_params].
  rewrite (load_elems_ext m m0 (data x_in)) by (apply Hfr; congruence).
  set (xs := load_elems m (data x_in)).
  set (m1 := store_elems p2 (fs <$> xs) m0).
  assert (H1 : load_elems m1 p2 = fs <$> xs).
  { apply load_elems_store_eq. by rewrite Hm2. }
  rewrite H1.
  set (m2 := store_elems p2 (fd <$> (fs <$> xs)) m1).
  assert (H2 : load_elems m2 p2 = fd <$> (fs <$> xs)).
  { apply load_elems_store_eq, store_live. by rewrite Hm2. }
  rewrite H2.
  assert (Hgs : load_elems m2 (data delta_out) = load_elems m (data delta_out)).
  { subst m2 m1. rewrite !load_elems_store_ne by done.
    apply load_elems_ext, Hfr; congruence. }
  rewrite Hgs.
  set (v := zip_with mul (fd <$> (fs <$> xs)) _).
  apply memory_eq; [done|]. apply map_eq. intros q.
  unfold sigmoid_backward_return; cbn [data tensor_params].
  destruct (decide (q = p1)) as [->|Hq1].
  { rewrite blocks_release_eq, blocks_store_ne by done. by rewrite Hp1. }
  rewrite blocks_release_ne by done.
  destruct (decide (q = p2)) as [->|Hq2].
  { rewrite blocks_release_eq, blocks_store_ne by done. by rewrite Hp2. }
  rewrite blocks_release_ne by done.
  rewrite !blocks_store. subst m2 m1. rewrite !blocks_store.
  rewrite !(decide_False (P := p2 = q)) by done.
  by rewrite Hfr by done.
Qed.

Lemma leaky_relu_backward_memory (x_in delta_out delta_in : aitensor_t)
    (al : ptr) m (fd mul : E → E → E) slope rest :
  load_elems m al = slope :: rest →
  tensor_live m delta_in →
  data delta_in ≠ data delta_out →
  elementwise_multiply mul delta_in delta_out delta_in
    (elementwise_scalar fd x_in al delta_in m)
  = store_elems (data delta_in)
      (zip_with mul (fd slope <$> load_elems m (data x_in))
         (load_elems m (data delta_out))) m.
Proof.
  intros Hal Hlive Hne.
  unfold elementwise_multiply, elementwise_scalar. rewrite Hal.
  rewrite load_elems_store_eq by done.
  rewrite load_elems_store_ne by done.
  apply store_elems_twice.
Qed.

(** Backward is one write of the chain-rule product into the gradient
    slot. *)
Lemma layer_backward_store a jp jd (self : ptr) st b cfg inl outl d mul :
  load_base self st = Some b →
  objs st !! layer_configuration b = Some cfg →
  is_activation a cfg →
  load_base (output_layer b) st = Some outl →
  load_base (input_layer b) st = Some inl →
  differentiates (mem st) cfg d mul →
  tensor_live (mem st) (result inl) →
  tensor_live (mem st) (deltas outl) →
  tensor_live (mem st) (deltas b) →
  data (deltas b) ≠ data (deltas outl) →
  layer_backward aimath_sizeof_tensor_params aimath_sizeof_tensor_data
    a jp jd self st
  = Some (overwrite (data (deltas b))
            (zip_with mul (d <$> load_elems (mem st) (data (result inl)))
               (load_elems (mem st) (data (deltas outl)))) st).
Proof.
  intros Hb Hcfg Ha Hout Hin Hd Hx Hg Hdl Hne.
  destruct a, cfg as [?|l|l]; try done;
    cbn [layer_backward differentiates] in *.
  - destruct Hd as (g & slope & rest & Hk & Hm & Hal & ->).
    rewrite (ailayer_leaky_relu_backward_eq self st b l outl inl _ _
               Hb Hcfg Hout Hin Hk Hm).
    unfold overwrite. do 2 f_equal.
    by apply (leaky_relu_backward_memory _ _ _ _ _ _ _ slope rest).
  - destruct Hd as (fs & fd & Hs & Hk & Hm & ->).
    rewrite (ailayer_sigmoid_backward_eq _ _ jp jd self st b l outl inl
               _ _ _ Hb Hcfg Hout Hin Hs Hk Hm).
    unfold overwrite. do 2 f_equal. cbv zeta.
    rewrite sigmoid_backward_memory by done.
    by rewrite <- list_fmap_compose.
Qed.

End PassEffects.

(** ** Passes of one node *)

Section NodePasses.

Context {E : Type}.
Variable aimath_sizeof_tensor_params : gmap N (list Z) → aitensor_t → N.
Variable aimath_sizeof_tensor_data : gmap N (list Z) → aitensor_t → N.
Implicit Types (st : state E) (b inl outl : ailayer_t) (m : memory E)
  (cfg o : object E) (p q : ptr) (vs ws : list E).

Lemma activates_map_base g m o f :
  activates m (map_base g o) f ↔ activates m o f.
Proof. by destruct o. Qed.

Lemma kernels_installed_activation a o :
  kernels_installed a o → is_activation a o.
Proof. by destruct a, o. Qed.

Lemma kernels_installed_map_base a g o :
  kernels_installed a (map_base g o) ↔ kernels_installed a o.
Proof. by destruct a, o. Qed.

Lemma differentiates_map_base g m o d mul :
  differentiates m (map_base g o) d mul ↔ differentiates m o d mul.
Proof. by destruct o. Qed.

(** Backward reads the successor's gradient descriptor through
    [output_layer]: where that refers to no layer the pass fails, whatever
    the kernels are. *)
Lemma layer_backward_no_successor a jp jd (self : ptr) st b :
  load_base self st = Some b →
  load_base (output_layer b) st = None →
  layer_backward aimath_sizeof_tensor_params aimath_sizeof_tensor_data
    a jp jd self st = None.
Proof.
  intros Hb Hout. destruct a; cbn [layer_backward].
  - unfold ailayer_leaky_relu_backward.
    rewrite Hb; cbn [mbind option_bind].
    destruct (objs st !! layer_configuration b ≫= as_leaky_relu);
      cbn [mbind option_bind]; [|done].
    by rewrite Hout.
  - unfold ailayer_sigmoid_backward.
    rewrite Hb; cbn [mbind option_bind].
    destruct (objs st !! layer_configuration b ≫= as_sigmoid);
      cbn [mbind option_bind]; [|done].
    by rewrite Hout.
Qed.

(** X5.  An initializer leaves the node ready for its forward pass: right
    after [initializer a layer pred], with no further wiring, forward
    succeeds and is one write of the activated predecessor result into the
    storage the node's result pointed at before the initializer ran. *)
Theorem forward_after_initializer a (layer pred : ptr) st o o_in f :
  layer ≠ pred →
  objs st !! layer = Some o →
  is_activation a o →
  objs st !! pred = Some o_in →
  activates (mem st) o f →
  ∃ st1,
    initializer a layer pred st = Some (layer, st1) ∧
    layer_forward a layer st1
    = Some (overwrite (data (result (base_of o)))
              (f <$> load_elems (mem st) (data (result (base_of o_in))))
              st1) ∧
    (tensor_live (mem st) (result (base_of o)) →
     result_after (layer_forward a layer st1) layer
     = Some (f <$> load_elems (mem st) (data (result (base_of o_in))))).
Proof.
  intros Hne Hl Ha Hin Hf.
  destruct (initializer_eq a layer pred st o o_in Hne Hl Ha Hin)
    as (d & Hd & ->).
  eexists. split; [reflexivity|].
  set (o1 := map_base (init_base a d layer pred (result (base_of o_in))) o).
  set (p1 := map_base (set_output_layer layer) o_in).
  set (st1 := {| objs := <[layer := o1]> (<[pred := p1]> (objs st));
                 mem := mem st |}).
  assert (Hb1 : load_base layer st1 = Some (base_of o1)).
  { unfold load_base, st1; cbn. by rewrite lookup_insert_eq. }
  assert (Hfw : layer_forward a layer st1
                = Some (overwrite (data (result (base_of o)))
                          (f <$> load_elems (mem st)
                                   (data (result (base_of o_in)))) st1)).
  { rewrite (layer_forward_store a layer st1 (base_of o1) o1 (base_of p1) f).
    - subst o1 p1. by rewrite !base_of_map_base.
    - exact Hb1.
    - subst o1. rewrite base_of_map_base. cbn. by rewrite lookup_insert_eq.
    - by apply is_activation_map_base.
    - subst o1. rewrite base_of_map_base. unfold load_base; cbn.
      rewrite lookup_insert_ne by done. by rewrite lookup_insert_eq.
    - by apply activates_map_base. }
  split; [exact Hfw|]. intros Hlive. rewrite Hfw.
  unfold result_after; cbn [mbind option_bind].
  change (load_base layer (overwrite _ _ st1)) with (load_base layer st1).
  rewrite Hb1; cbn [mbind option_bind]. f_equal.
  subst o1. rewrite base_of_map_base. cbn.
  by apply load_elems_store_eq.
Qed.

(** X6.  An initializer does not give the node a successor: right after
    [initializer a layer pred] the [output_layer] member of the node is what
    it was before the call.  If it refers to no layer, the backward pass
    fails, since it reads the successor's gradient descriptor through that
    pointer.  If it refers to a third layer, and the storage the pass
    touches is bound, the pass is one write of the chain-rule product into
    the storage the node's gradient slot pointed at before the initializer
    ran. *)
Theorem backward_needs_successor a jp jd (layer pred : ptr) st o o_in :
  layer ≠ pred →
  objs st !! layer = Some o →
  is_activation a o →
  objs st !! pred = Some o_in →
  ∃ st1,
    initializer a layer pred st = Some (layer, st1) ∧
    output_layer <$> load_base layer st1 = Some (output_layer (base_of o)) ∧
    (objs st !! output_layer (base_of o) = None →
     layer_backward aimath_sizeof_tensor_params aimath_sizeof_tensor_data
       a jp jd layer st1 = None) ∧
    (∀ o_out d mul,
       objs st !! output_layer (base_of o) = Some o_out →
       output_layer (base_of o) ≠ layer →
       output_layer (base_of o) ≠ pred →
       differentiates (mem st) o d mul →
       tensor_live (mem st) (result (base_of o_in)) →
       tensor_live (mem st) (deltas (base_of o_out)) →
       tensor_live (mem st) (deltas (base_of o)) →
       data (deltas (base_of o)) ≠ data (deltas (base_of o_out)) →
       layer_backward aimath_sizeof_tensor_params aimath_sizeof_tensor_data
         a jp jd layer st1
       = Some (overwrite (data (deltas (base_of o)))
                 (zip_with mul
                    (d <$> load_elems (mem st) (data (result (base_of o_in))))
                    (load_elems (mem st) (data (deltas (base_of o_out)))))
                 st1)).
Proof.
  intros Hne Hl Ha Hin.
  destruct (initializer_eq a layer pred st o o_in Hne Hl Ha Hin)
    as (d0 & Hd0 & ->).
  eexists. split; [reflexivity|].
  set (o1 := map_base (init_base a d0 layer pred (result (base_of o_in))) o).
  set (p1 := map_base (set_output_layer layer) o_in).
  set (st1 := {| objs := <[layer := o1]> (<[pred := p1]> (objs st));
                 mem := mem st |}).
  assert (Hb1 : load_base layer st1 = Some (base_of o1)).
  { unfold load_base, st1; cbn. by rewrite lookup_insert_eq. }
  assert (Hout1 : output_layer (base_of o1) = output_layer (base_of o)).
  { subst o1. by rewrite base_of_map_base. }
  split; [by rewrite Hb1, <- Hout1|]. split.
  - intros Hnone.
    apply (layer_backward_no_successor a jp jd layer st1 (base_of o1) Hb1).
    rewrite Hout1. unfold load_base, st1; cbn [objs].
    rewrite !lookup_insert_ne; [by rewrite Hnone| |].
    + intros Heq. rewrite <- Heq in Hnone. congruence.
    + intros Heq. rewrite <- Heq in Hnone. congruence.
  - intros o_out d mul Hout Hol Hop Hd Hx Hg Hdl Hdne.
    rewrite (layer_backward_store _ _ a jp jd layer st1 (base_of o1) o1
               (base_of p1) (base_of o_out) d mul).
    + subst o1 p1. by rewrite !base_of_map_base.
    + exact Hb1.
    + subst o1. rewrite base_of_map_base. cbn. by rewrite lookup_insert_eq.
    + by apply is_activation_map_base.
    + rewrite Hout1. unfold load_base, st1; cbn [objs].
      rewrite !lookup_insert_ne by done. by rewrite Hout.
    + subst o1. rewrite base_of_map_base. unfold load_base; cbn.
      rewrite lookup_insert_ne by done. by rewrite lookup_insert_eq.
    + by apply differentiates_map_base.
    + subst p1. by rewrite base_of_map_base.
    + exact Hg.
    + subst o1. by rewrite base_of_map_base.
    + subst o1. by rewrite base_of_map_base.
Qed.

(** X8.  A Leaky ReLU node whose gradient slot shares its storage with the
    successor's gradient slot loses the successor's gradient: the
    derivative is written over it before the multiplication reads it, and
    the slot ends as the elementwise product of the derivative with
    itself. *)
Theorem leaky_relu_backward_shared_slot (self : ptr) st b l outl inl fd mul
    slope rest :
  load_base self st = Some b →
  objs st !! layer_configuration b = Some (obj_leaky_relu l) →
  load_base (output_layer b) st = Some outl →
  load_base (input_layer b) st = Some inl →
  d_leaky_relu l = Some (elementwise_scalar fd) →
  lrelu_multiply l = Some (elementwise_multiply mul) →
  load_elems (mem st) (alpha l) = slope :: rest →
  tensor_live (mem st) (deltas b) →
  data (deltas b) = data (deltas outl) →
  deltas_after (ailayer_leaky_relu_backward self st) self
  = Some (zip_with mul
            (fd slope <$> load_elems (mem st) (data (result inl)))
            (fd slope <$> load_elems (mem st) (data (result inl)))).
Proof.
  intros Hb Hl Hout Hin Hd Hm Hal Hlive Hshared.
  rewrite (ailayer_leaky_relu_backward_eq self st b l outl inl _ _
             Hb Hl Hout Hin Hd Hm).
  erewrite (deltas_after_Some _ _ self b st);
    [|reflexivity|reflexivity|exact Hb].
  cbn [set_mem mem]. unfold elementwise_multiply, elementwise_scalar.
  rewrite Hal, <- Hshared.
  rewrite !load_elems_store_eq; try done. by apply store_live.
Qed.

(** X9.  With elementwise kernels and live storage, a backward pass of
    either kind has exactly the effect of one write of the chain-rule
    product into the node's gradient slot (for the Sigmoid node the scratch
    arrays leave no trace in the state); and if the slot shares no storage
    with what the pass reads, a second backward pass, whatever it finds in
    its scratch arrays, returns the state unchanged. *)
Theorem backward_is_one_write a jp jd (self : ptr) st b cfg inl outl d mul :
  load_base self st = Some b →
  objs st !! layer_configuration b = Some cfg →
  is_activation a cfg →
  load_base (output_layer b) st = Some outl →
  load_base (input_layer b) st = Some inl →
  differentiates (mem st) cfg d mul →
  tensor_live (mem st) (result inl) →
  tensor_live (mem st) (deltas outl) →
  tensor_live (mem st) (deltas b) →
  data (deltas b) ≠ data (deltas outl) →
  let st1 :=
    overwrite (data (deltas b))
      (zip_with mul (d <$> load_elems (mem st) (data (result inl)))
         (load_elems (mem st) (data (deltas outl)))) st in
  layer_backward aimath_sizeof_tensor_params aimath_sizeof_tensor_data
    a jp jd self st = Some st1 ∧
  (data (deltas b) ≠ data (result inl) →
   slope_ptr cfg ≠ Some (data (deltas b)) →
   ∀ jp' jd',
     layer_backward aimath_sizeof_tensor_params aimath_sizeof_tensor_data
       a jp' jd' self st1 = Some st1).
Proof.
  intros Hb Hcfg Ha Hout Hin Hd Hx Hg Hdl Hne. cbv zeta.
  split.
  { by apply (layer_backward_store _ _ a jp jd self st b cfg inl outl). }
  intros Hnx Hslope jp' jd'.
  rewrite (layer_backward_store _ _ a jp' jd' self _ b cfg inl outl d mul);
    try done; try (by apply tensor_live_store).
  - unfold overwrite; cbn [set_mem mem objs].
    rewrite !load_elems_store_ne by done. by rewrite store_elems_twice.
  - by apply differentiates_store.
Qed.

(** X10.  With an elementwise activate kernel, forward is one write of the
    activated predecessor result into the node's result; if the result
    shares no storage with the predecessor's result or the slope, a second
    forward pass returns the state unchanged. *)
Theorem forward_is_one_write a (self : ptr) st b cfg inl f :
  load_base self st = Some b →
  objs st !! layer_configuration b = Some cfg →
  is_activation a cfg →
  load_base (input_layer b) st = Some inl →
  activates (mem st) cfg f →
  let st1 :=
    overwrite (data (result b))
      (f <$> load_elems (mem st) (data (result inl))) st in
  layer_forward a self st = Some st1 ∧
  (data (result b) ≠ data (result inl) →
   slope_ptr cfg ≠ Some (data (result b)) →
   layer_forward a self st1 = Some st1).
Proof.
  intros Hb Hcfg Ha Hin Hf. cbv zeta. split.
  { by apply (layer_forward_store a self st b cfg inl). }
  intros Hnx Hslope.
  rewrite (layer_forward_store a self _ b cfg inl f); try done.
  - unfold overwrite; cbn [set_mem mem objs].
    rewrite load_elems_store_ne by done. by rewrite store_elems_twice.
  - by apply activates_store.
Qed.

(** X11.  The forward and the backward pass of one node commute when the
    node's result and gradient slot share no storage with each other or
    with what the other pass reads: both orders succeed and end in the
    same state. *)
Theorem forward_backward_commute a jp jd jp' jd' (self : ptr) st b cfg inl
    outl f d mul :
  load_base self st = Some b →
  objs st !! layer_configuration b = Some cfg →
  is_activation a cfg →
  load_base (output_layer b) st = Some outl →
  load_base (input_layer b) st = Some inl →
  activates (mem st) cfg f →
  differentiates (mem st) cfg d mul →
  tensor_live (mem st) (result inl) →
  tensor_live (mem st) (deltas outl) →
  tensor_live (mem st) (deltas b) →
  data (deltas b) ≠ data (deltas outl) →
  data (deltas b) ≠ data (result inl) →
  data (result b) ≠ data (result inl) →
  data (result b) ≠ data (deltas outl) →
  data (result b) ≠ data (deltas b) →
  slope_ptr cfg ≠ Some (data (result b)) →
  slope_ptr cfg ≠ Some (data (deltas b)) →
  ∃ st',
    (layer_forward a self st ≫=
       layer_backward aimath_sizeof_tensor_params aimath_sizeof_tensor_data
         a jp jd self) = Some st' ∧
    (layer_backward aimath_sizeof_tensor_params aimath_sizeof_tensor_data
       a jp' jd' self st ≫= layer_forward a self) = Some st'.
Proof.
  intros Hb Hcfg Ha Hout Hin Hf Hd Hx Hg Hdl Hdg Hdx Hrx Hrg Hrd Hsr Hsd.
  rewrite (layer_forward_store a self st b cfg inl f) by done.
  rewrite (layer_backward_store _ _ a jp' jd' self st b cfg inl outl d mul)
    by done.
  cbn [mbind option_bind].
  rewrite (layer_backward_store _ _ a jp jd self _ b cfg inl outl d mul);
    try done; try (by apply tensor_live_store);
    [|by apply differentiates_store].
  rewrite (layer_forward_store a self _ b cfg inl f); try done;
    [|by apply activates_store].
  eexists. split; [reflexivity|].
  unfold overwrite; cbn [set_mem mem objs].
  rewrite !load_elems_store_ne by done.
  by rewrite store_elems_comm.
Qed.

End NodePasses.

(** ** Footprint *)

Section Footprint.

Context {E : Type}.
Variable aimath_sizeof_tensor_params : gmap N (list Z) → aitensor_t → N.
Variable aimath_sizeof_tensor_data : gmap N (list Z) → aitensor_t → N.
Implicit Types (st : state E) (b inl outl : ailayer_t) (m : memory E)
  (p q : ptr).

Lemma footprint_store p (vs : list E) m :
  footprint (store_elems p vs m) = footprint m.
Proof.
  apply map_eq. intros q. unfold footprint.
  rewrite !lookup_fmap, blocks_store. case_decide; [|done].
  by destruct (blocks m !! q).
Qed.

Lemma elementwise_keeps_footprint (f : E → E) :
  unary_keeps_footprint (elementwise f).
Proof. intros x res m. apply footprint_store. Qed.

Lemma elementwise_scalar_keeps_footprint (f : E → E → E) :
  scalar_keeps_footprint (elementwise_scalar f).
Proof.
  intros x a res m. unfold elementwise_scalar.
  destruct (load_elems m a); [done|apply footprint_store].
Qed.

Lemma elementwise_multiply_keeps_footprint (mul : E → E → E) :
  binary_keeps_footprint (elementwise_multiply mul).
Proof. intros a b res m. apply footprint_store. Qed.

(** Entering and leaving the scratch arrays around kernels that keep the
    footprint gives back the footprint of the start. *)
Lemma sigmoid_backward_keeps_footprint jp jd (x_in delta_out delta_in :
    aitensor_t) m (ks kd : kernel_unary E) (km : kernel_binary E) :
  unary_keeps_footprint ks → unary_keeps_footprint kd →
  binary_keeps_footprint km →
  let frame := sigmoid_backward_locals aimath_sizeof_tensor_params
                 aimath_sizeof_tensor_data jp jd x_in m in
  footprint
    (sigmoid_backward_return frame.1
       (km frame.1 delta_out delta_in
          (kd frame.1 frame.1 (ks x_in frame.1 frame.2))))
  = footprint m.
Proof.
  intros Hks Hkd Hkm.
  destruct (sigmoid_backward_locals_spec aimath_sizeof_tensor_params
              aimath_sizeof_tensor_data jp jd x_in m)
    as (p1 & p2 & m0 & -> & Hne & Hp1 & Hp2 & _ & _ & _ & Hfr).
  cbn [fst snd]. cbv zeta.
  unfold sigmoid_backward_return; cbn [data tensor_params].
  unfold footprint at 1, release_block; cbn [blocks].
  rewrite !fmap_delete.
  change (blk_bytes <$> blocks ?x) with (footprint x).
  rewrite Hkm, Hkd, Hks.
  apply map_eq. intros q. unfold footprint.
  destruct (decide (q = p1)) as [->|Hq1].
  { rewrite lookup_delete_eq, lookup_fmap. by rewrite Hp1. }
  rewrite lookup_delete_ne by done.
  destruct (decide (q = p2)) as [->|Hq2].
  { rewrite lookup_delete_eq, lookup_fmap. by rewrite Hp2. }
  rewrite lookup_delete_ne by done.
  rewrite !lookup_fmap. by rewrite Hfr.
Qed.

Lemma run_op_keeps_footprint a (op : layer_op E) (self : ptr) st :
  node_ready a st self →
  (∀ p o, objs st !! p = Some o → kernels_keep_footprint o) →
  ∃ st',
    run_op aimath_sizeof_tensor_params aimath_sizeof_tensor_data
      a op self st = Some st' ∧
    objs st' = objs st ∧
    footprint (mem st') = footprint (mem st).
Proof.
  intros (b & cfg & inl & outl & Hb & Hcfg & Hk & Hin & Hout) Hfp.
  specialize (Hfp _ _ Hcfg).
  destruct a, cfg as [?|l|l]; try done;
    destruct Hk as ([k1 Hk1] & [k2 Hk2] & [k3 Hk3]);
    destruct Hfp as (Hf1 & Hf2 & Hf3);
    rewrite Hk1 in Hf1; rewrite Hk2 in Hf2; rewrite Hk3 in Hf3;
    cbn [installed] in Hf1, Hf2, Hf3;
    destruct op as [|jp jd|];
    cbn [run_op layer_forward layer_backward layer_calc_result_shape].
  - unfold ailayer_leaky_relu_forward.
    rewrite Hb; cbn [mbind option_bind].
    rewrite Hcfg; cbn [mbind option_bind as_leaky_relu].
    rewrite Hin; cbn [mbind option_bind]. rewrite Hk1; cbn [mbind option_bind].
    eexists. split; [reflexivity|]. split; [done|]. apply Hf1.
  - rewrite (ailayer_leaky_relu_backward_eq self st b l outl inl k2 k3)
      by done.
    eexists. split; [reflexivity|]. split; [done|].
    cbn [set_mem mem]. by rewrite Hf3, Hf2.
  - by exists st.
  - unfold ailayer_sigmoid_forward.
    rewrite Hb; cbn [mbind option_bind].
    rewrite Hcfg; cbn [mbind option_bind as_sigmoid].
    rewrite Hin; cbn [mbind option_bind]. rewrite Hk1; cbn [mbind option_bind].
    eexists. split; [reflexivity|]. split; [done|]. apply Hf1.
  - rewrite (ailayer_sigmoid_backward_eq _ _ jp jd self st b l outl inl
               k1 k2 k3) by done.
    eexists. split; [reflexivity|]. split; [done|].
    cbn [set_mem mem]. by apply sigmoid_backward_keeps_footprint.
  - by exists st.
Qed.

Lemma node_ready_objs a st st' (self : ptr) :
  objs st' = objs st → node_ready a st self → node_ready a st' self.
Proof.
  intros Hobjs (b & cfg & inl & outl & H). exists b, cfg, inl, outl.
  unfold load_base in *. by rewrite Hobjs.
Qed.

(** X7.  Any sequence of forward, backward and shape-inference calls on a
    wired node of either kind, with kernels that neither create, remove nor
    resize a block, succeeds and ends with the same layer structs, the same
    live blocks and the same byte size of each block as it started with:
    the scratch arrays of the Sigmoid backward passes never add up. *)
Theorem layer_ops_keep_footprint a (ops : list (layer_op E)) (self : ptr) st :
  node_ready a st self →
  (∀ p o, objs st !! p = Some o → kernels_keep_footprint o) →
  ∃ st',
    run_ops aimath_sizeof_tensor_params aimath_sizeof_tensor_data
      a ops self st = Some st' ∧
    objs st' = objs st ∧
    footprint (mem st') = footprint (mem st).
Proof.
  revert st. induction ops as [|op ops IH]; intros st Hready Hfp.
  { by exists st. }
  destruct (run_op_keeps_footprint a op self st Hready Hfp)
    as (st1 & Hrun & Hobjs & Hfoot).
  destruct (IH st1) as (st' & Hrun' & Hobjs' & Hfoot').
  { by apply (node_ready_objs a st). }
  { intros p o. rewrite Hobjs. apply Hfp. }
  exists st'. cbn [run_ops]. rewrite Hrun; cbn [mbind option_bind].
  split; [done|]. split; congruence.
Qed.

End Footprint.

(** ** Passes along a chain *)

Section ChainPasses.

Context {E : Type}.
Variable aimath_sizeof_tensor_params : gmap N (list Z) → aitensor_t → N.
Variable aimath_sizeof_tensor_data : gmap N (list Z) → aitensor_t → N.
Implicit Types (st : state E) (m : memory E) (cfg : object E).

(** X12.  Forward passes compose along the links: for a node [sa] and its
    successor [sb], both with elementwise activate kernels, forward of
    [sa] followed by forward of [sb] leaves in the result of [sb] the
    activation of [sb] applied to the activation of [sa] applied to the
    predecessor's result. *)
Theorem forward_chain ka kb (sa sb : ptr) st ba bb cfga cfgb inl fa fb :
  load_base sa st = Some ba →
  objs st !! layer_configuration ba = Some cfga →
  is_activation ka cfga →
  load_base (input_layer ba) st = Some inl →
  activates (mem st) cfga fa →
  load_base sb st = Some bb →
  objs st !! layer_configuration bb = Some cfgb →
  is_activation kb cfgb →
  input_layer bb = sa →
  activates (mem st) cfgb fb →
  tensor_live (mem st) (result ba) →
  tensor_live (mem st) (result bb) →
  slope_ptr cfgb ≠ Some (data (result ba)) →
  result_after (layer_forward ka sa st ≫= layer_forward kb sb) sb
  = Some (fb <$> (fa <$> load_elems (mem st) (data (result inl)))).
Proof.
  intros Hba Hca Hka Hin Hfa Hbb Hcb Hkb Hlink Hfb Hra Hrb Hslope.
  rewrite (layer_forward_store ka sa st ba cfga inl fa) by done.
  cbn [mbind option_bind].
  rewrite (layer_forward_store kb sb _ bb cfgb ba fb); try done.
  2: { by rewrite Hlink. }
  2: { by apply activates_store. }
  unfold result_after; cbn [mbind option_bind].
  change (load_base sb (overwrite _ _ (overwrite _ _ st)))
    with (load_base sb st).
  rewrite Hbb; cbn [mbind option_bind overwrite set_mem mem]. f_equal.
  rewrite load_elems_store_eq by (by apply store_live).
  by rewrite load_elems_store_eq.
Qed.

(** X13.  Backward passes compose against the links (the chain rule): for
    a node [sa] and its successor [sb], backward of [sb] followed by
    backward of [sa] leaves in the gradient slot of [sa] the derivative of
    [sa] at the predecessor's result times what [sb] left in its slot, the
    derivative of [sb] at the result of [sa] times the gradient of the
    successor of [sb]. *)
Theorem backward_chain ka kb jp jd jp' jd' (sa sb : ptr) st ba bb bc cfga
    cfgb inl da db mula mulb :
  load_base sa st = Some ba →
  objs st !! layer_configuration ba = Some cfga →
  is_activation ka cfga →
  load_base (input_layer ba) st = Some inl →
  output_layer ba = sb →
  differentiates (mem st) cfga da mula →
  load_base sb st = Some bb →
  objs st !! layer_configuration bb = Some cfgb →
  is_activation kb cfgb →
  input_layer bb = sa →
  load_base (output_layer bb) st = Some bc →
  differentiates (mem st) cfgb db mulb →
  tensor_live (mem st) (result inl) →
  tensor_live (mem st) (result ba) →
  tensor_live (mem st) (deltas ba) →
  tensor_live (mem st) (deltas bb) →
  tensor_live (mem st) (deltas bc) →
  data (deltas bb) ≠ data (deltas bc) →
  data (deltas ba) ≠ data (deltas bb) →
  data (deltas bb) ≠ data (result inl) →
  slope_ptr cfga ≠ Some (data (deltas bb)) →
  deltas_after
    (layer_backward aimath_sizeof_tensor_params aimath_sizeof_tensor_data
       kb jp jd sb st ≫=
     layer_backward aimath_sizeof_tensor_params aimath_sizeof_tensor_data
       ka jp' jd' sa) sa
  = Some (zip_with mula
            (da <$> load_elems (mem st) (data (result inl)))
            (zip_with mulb
               (db <$> load_elems (mem st) (data (result ba)))
               (load_elems (mem st) (data (deltas bc))))).
Proof.
  intros Hba Hca Hka Hin Hout Hda Hbb Hcb Hkb Hlink Hbc Hdb
    Hx Hra Hla Hlb Hlc Hbc' Hab Hbx Hslope.
  rewrite (layer_backward_store _ _ kb jp jd sb st bb cfgb ba bc db mulb);
    try done.
  2: { by rewrite Hlink. }
  cbn [mbind option_bind].
  rewrite (layer_backward_store _ _ ka jp' jd' sa _ ba cfga inl bb da mula);
    try done; try (by apply tensor_live_store).
  2: { by rewrite Hout. }
  2: { by apply differentiates_store. }
  unfold deltas_after; cbn [mbind option_bind].
  change (load_base sa (overwrite _ _ (overwrite _ _ st)))
    with (load_base sa st).
  rewrite Hba; cbn [mbind option_bind overwrite set_mem mem]. f_equal.
  rewrite load_elems_store_eq by (by apply store_live).
  rewrite load_elems_store_ne by done.
  by rewrite load_elems_store_eq.
Qed.

End ChainPasses.

(** ** The added properties on the example chains *)

(** X5 with the storage of node 2 bound before the initializer runs. *)
Lemma forward_after_initializer_witness :
  ∃ st1,
    initializer LeakyReLU 2 1 (ex_bound_uninit LeakyReLU) = Some (2%N, st1) ∧
    result_after (layer_forward LeakyReLU 2 st1) 2
    = Some (leaky_relu_scalar (1 # 10) <$> [-2; 0; 3]%Q).
Proof.
  destruct (forward_after_initializer LeakyReLU 2 1
              (ex_bound_uninit LeakyReLU) (ex_bound_node LeakyReLU)
              (obj_layer (ex_pred 8 2)) (leaky_relu_scalar (1 # 10)))
    as (st1 & Hinit & _ & Hres).
  - discriminate.
  - reflexivity.
  - exact I.
  - reflexivity.
  - by exists leaky_relu_scalar, (1 # 10)%Q, [].
  - exists st1. split; [exact Hinit|]. apply Hres. by eexists.
Defined.

(** X6 on a Sigmoid struct with bound storage: with a null [output_layer]
    before the call, and with [output_layer] set to node 3. *)
Lemma backward_needs_successor_witness :
  (∃ st1,
     initializer Sigmoid 2 1 (ex_bound_uninit Sigmoid) = Some (2%N, st1) ∧
     output_layer <$> load_base 2 st1 = Some NULL ∧
     layer_backward ex_sizeof_tensor_params ex_sizeof_tensor_data
       Sigmoid [] [9%Q] 2 st1 = None) ∧
  (∃ st1,
     initializer Sigmoid 2 1 (ex_bound_linked Sigmoid) = Some (2%N, st1) ∧
     output_layer <$> load_base 2 st1 = Some 3%N ∧
     layer_backward ex_sizeof_tensor_params ex_sizeof_tensor_data
       Sigmoid [] [9%Q] 2 st1
     = Some (overwrite 12 [-2; 0; -12]%Q st1)).
Proof.
  split.
  - destruct (backward_needs_successor ex_sizeof_tensor_params
                ex_sizeof_tensor_data Sigmoid [] [9%Q] 2 1
                (ex_bound_uninit Sigmoid) (ex_bound_node Sigmoid)
                (obj_layer (ex_pred 8 2)))
      as (st1 & Hinit & Hout & Hnone & _);
      [ discriminate | reflexivity | exact I | reflexivity | ].
    exists st1. split; [exact Hinit|]. split; [exact Hout|].
    apply Hnone. reflexivity.
  - destruct (backward_needs_successor ex_sizeof_tensor_params
                ex_sizeof_tensor_data Sigmoid [] [9%Q] 2 1
                (ex_bound_linked Sigmoid)
                (map_base (set_output_layer 3) (ex_bound_node Sigmoid))
                (obj_layer (ex_pred 8 2)))
      as (st1 & Hinit & Hout & _ & Hsome);
      [ discriminate | reflexivity | exact I | reflexivity | ].
    exists st1. split; [exact Hinit|]. split; [exact Hout|].
    apply (Hsome (obj_layer ex_succ)
             (λ x : Q, ((x + 1) * (1 - (x + 1)))%Q) Qmult);
      [ reflexivity | discriminate | discriminate
      | eexists _, _; repeat split; reflexivity
      | eexists; reflexivity | eexists; reflexivity | eexists; reflexivity
      | discriminate ].
Defined.

Lemma ex_sigmoid_state_Q_ready ds gs :
  node_ready Sigmoid (ex_sigmoid_state_Q ds gs) 2.
Proof.
  exists (ex_node Sigmoid), (obj_sigmoid (ex_sigmoid_Q (ex_node Sigmoid))),
    (set_output_layer 2 (ex_pred 8 2)), ex_succ.
  repeat split; by eexists.
Qed.

Lemma ex_sigmoid_state_Q_footprint ds gs p (o : object Q) :
  objs (ex_sigmoid_state_Q ds gs) !! p = Some o → kernels_keep_footprint o.
Proof.
  unfold ex_sigmoid_state_Q, ex_state; cbn [objs]. intros Hp.
  apply lookup_insert_Some in Hp as [[_ <-]|[_ Hp]]; [exact I|].
  apply lookup_insert_Some in Hp as [[_ <-]|[_ Hp]].
  { repeat split; [apply elementwise_keeps_footprint ..
                  | apply elementwise_multiply_keeps_footprint]. }
  apply lookup_singleton_Some in Hp as [_ <-]. exact I.
Qed.

(** X7 for four operations on the Sigmoid example chain. *)
Lemma layer_ops_keep_footprint_witness :
  ∃ st',
    run_ops ex_sizeof_tensor_params ex_sizeof_tensor_data Sigmoid
      [op_forward; op_backward [] [9%Q]; op_calc_result_shape;
       op_backward [5%Q] []] 2
      (ex_sigmoid_state_Q [7; 7; 7]%Q [1; 1; 1]%Q) = Some st' ∧
    objs st' = objs (ex_sigmoid_state_Q [7; 7; 7]%Q [1; 1; 1]%Q) ∧
    footprint (mem st')
    = footprint (mem (ex_sigmoid_state_Q [7; 7; 7]%Q [1; 1; 1]%Q)).
Proof.
  exact (layer_ops_keep_footprint ex_sizeof_tensor_params
           ex_sizeof_tensor_data Sigmoid
           [op_forward; op_backward [] [9%Q]; op_calc_result_shape;
            op_backward [5%Q] []] 2
           (ex_sigmoid_state_Q [7; 7; 7]%Q [1; 1; 1]%Q)
           (ex_sigmoid_state_Q_ready _ _) (ex_sigmoid_state_Q_footprint _ _)).
Defined.

(** X8: derivative [0.1, 1, 1], successor gradient [1, 1, 1] lost. *)
Lemma leaky_relu_backward_shared_slot_witness :
  deltas_after
    (ailayer_leaky_relu_backward 2 (ex_leaky_state_aliased [1; 1; 1]%Q)) 2
  = Some [1 # 100; 1; 1]%Q.
Proof.
  refine (leaky_relu_backward_shared_slot 2
            (ex_leaky_state_aliased [1; 1; 1]%Q)
            (set_deltas (tensor_at 8 2 20 13) (ex_node LeakyReLU))
            (ex_leaky_relu
               (set_deltas (tensor_at 8 2 20 13) (ex_node LeakyReLU)))
            ex_succ (set_output_layer 2 (ex_pred 8 2))
            d_leaky_relu_scalar Qmult (1 # 10) []
            eq_refl eq_refl eq_refl eq_refl eq_refl eq_refl eq_refl
            _ eq_refl).
  by eexists.
Defined.

(** X9 on the Sigmoid example chain. *)
Lemma backward_is_one_write_witness :
  layer_backward ex_sizeof_tensor_params ex_sizeof_tensor_data
    Sigmoid [] [9%Q] 2 (ex_sigmoid_state_Q [7; 7; 7]%Q [1; 1; 1]%Q)
  = Some (overwrite 12 [-2; 0; -12]%Q
            (ex_sigmoid_state_Q [7; 7; 7]%Q [1; 1; 1]%Q)) ∧
  layer_backward ex_sizeof_tensor_params ex_sizeof_tensor_data
    Sigmoid [4%Q] [] 2
    (overwrite 12 [-2; 0; -12]%Q (ex_sigmoid_state_Q [7; 7; 7]%Q [1; 1; 1]%Q))
  = Some (overwrite 12 [-2; 0; -12]%Q
            (ex_sigmoid_state_Q [7; 7; 7]%Q [1; 1; 1]%Q)).
Proof.
  destruct (backward_is_one_write ex_sizeof_tensor_params
              ex_sizeof_tensor_data Sigmoid [] [9%Q] 2
              (ex_sigmoid_state_Q [7; 7; 7]%Q [1; 1; 1]%Q)
              (ex_node Sigmoid) (obj_sigmoid (ex_sigmoid_Q (ex_node Sigmoid)))
              (set_output_layer 2 (ex_pred 8 2)) ex_succ
              (λ x : Q, ((x + 1) * (1 - (x + 1)))%Q) Qmult)
    as [Hone Hagain];
    [ first [ reflexivity | exact I | discriminate | by eexists
            | by eexists _, _ ] ..
    | split; [exact Hone | apply Hagain; discriminate] ].
Defined.

(** X10 on the Leaky ReLU example chain. *)
Lemma forward_is_one_write_witness :
  layer_forward LeakyReLU 2 (ex_leaky_state [7; 7; 7]%Q [1; 1; 1]%Q)
  = Some (overwrite 11 (leaky_relu_scalar (1 # 10) <$> [-2; 0; 3]%Q)
            (ex_leaky_state [7; 7; 7]%Q [1; 1; 1]%Q)) ∧
  layer_forward LeakyReLU 2
    (overwrite 11 (leaky_relu_scalar (1 # 10) <$> [-2; 0; 3]%Q)
       (ex_leaky_state [7; 7; 7]%Q [1; 1; 1]%Q))
  = Some (overwrite 11 (leaky_relu_scalar (1 # 10) <$> [-2; 0; 3]%Q)
            (ex_leaky_state [7; 7; 7]%Q [1; 1; 1]%Q)).
Proof.
  destruct (forward_is_one_write LeakyReLU 2
              (ex_leaky_state [7; 7; 7]%Q [1; 1; 1]%Q)
              (ex_node LeakyReLU)
              (obj_leaky_relu (ex_leaky_relu (ex_node LeakyReLU)))
              (set_output_layer 2 (ex_pred 8 2))
              (leaky_relu_scalar (1 # 10)))
    as [Hone Hagain];
    [ first [ reflexivity | exact I
            | by exists leaky_relu_scalar, (1 # 10)%Q, [] ] ..
    | split; [exact Hone | apply Hagain; discriminate] ].
Defined.

(** X11 on the Leaky ReLU example chain. *)
Lemma forward_backward_commute_witness :
  ∃ st',
    (layer_forward LeakyReLU 2 (ex_leaky_state [7; 7; 7]%Q [1; 1; 1]%Q) ≫=
       layer_backward ex_sizeof_tensor_params ex_sizeof_tensor_data
         LeakyReLU [] [] 2) = Some st' ∧
    (layer_backward ex_sizeof_tensor_params ex_sizeof_tensor_data
       LeakyReLU [] [] 2 (ex_leaky_state [7; 7; 7]%Q [1; 1; 1]%Q) ≫=
     layer_forward LeakyReLU 2) = Some st'.
Proof.
  apply (forward_backward_commute ex_sizeof_tensor_params
           ex_sizeof_tensor_data LeakyReLU [] [] [] [] 2
           (ex_leaky_state [7; 7; 7]%Q [1; 1; 1]%Q)
           (ex_node LeakyReLU)
           (obj_leaky_relu (ex_leaky_relu (ex_node LeakyReLU)))
           (set_output_layer 2 (ex_pred 8 2)) ex_succ
           (leaky_relu_scalar (1 # 10)) (d_leaky_relu_scalar (1 # 10)) Qmult);
    first [ reflexivity | exact I | discriminate | by eexists
          | by exists leaky_relu_scalar, (1 # 10)%Q, []
          | by exists d_leaky_relu_scalar, (1 # 10)%Q, [] ].
Defined.

(** X12 on the chain of four nodes. *)
Lemma forward_chain_witness :
  result_after
    (layer_forward LeakyReLU 2
       (ex_chain_state [5; 5; 5]%Q [7; 7; 7]%Q [5; 5; 5]%Q [7; 7; 7]%Q
          [1; 1; 1]%Q) ≫= layer_forward Sigmoid 3) 3
  = Some ((λ x : Q, (x + 1)%Q) <$>
            (leaky_relu_scalar (1 # 10) <$> [-2; 0; 3]%Q)).
Proof.
  refine (forward_chain LeakyReLU Sigmoid 2 3
            (ex_chain_state [5; 5; 5]%Q [7; 7; 7]%Q [5; 5; 5]%Q [7; 7; 7]%Q
               [1; 1; 1]%Q)
            (ex_chain_node LeakyReLU 2 1 3 11 12)
            (ex_chain_node Sigmoid 3 2 4 16 13)
            (obj_leaky_relu
               (ex_leaky_relu (ex_chain_node LeakyReLU 2 1 3 11 12)))
            (obj_sigmoid (ex_sigmoid_Q (ex_chain_node Sigmoid 3 2 4 16 13)))
            (set_output_layer 2 (ex_pred 8 2))
            (leaky_relu_scalar (1 # 10)) (λ x : Q, (x + 1)%Q)
            eq_refl eq_refl I eq_refl _ eq_refl eq_refl I eq_refl eq_refl
            _ _ _);
    first [ discriminate | by eexists
          | by exists leaky_relu_scalar, (1 # 10)%Q, [] ].
Defined.

(** X13 on the chain of four nodes. *)
Lemma backward_chain_witness :
  deltas_after
    (layer_backward ex_sizeof_tensor_params ex_sizeof_tensor_data
       Sigmoid [] [9%Q] 3
       (ex_chain_state [-1; 1; 4]%Q [7; 7; 7]%Q [5; 5; 5]%Q [7; 7; 7]%Q
          [1; 1; 1]%Q) ≫=
     layer_backward ex_sizeof_tensor_params ex_sizeof_tensor_data
       LeakyReLU [] [] 2) 2
  = Some (zip_with Qmult
            (d_leaky_relu_scalar (1 # 10) <$> [-2; 0; 3]%Q)
            (zip_with Qmult
               ((λ x : Q, ((x + 1) * (1 - (x + 1)))%Q) <$> [-1; 1; 4]%Q)
               [1; 1; 1]%Q)).
Proof.
  refine (backward_chain ex_sizeof_tensor_params ex_sizeof_tensor_data
            LeakyReLU Sigmoid [] [9%Q] [] [] 2 3
            (ex_chain_state [-1; 1; 4]%Q [7; 7; 7]%Q [5; 5; 5]%Q [7; 7; 7]%Q
               [1; 1; 1]%Q)
            (ex_chain_node LeakyReLU 2 1 3 11 12)
            (ex_chain_node Sigmoid 3 2 4 16 13)
            (set_input_layer 3 (set_deltas (tensor_at 8 2 20 15) blank_layer))
            (obj_leaky_relu
               (ex_leaky_relu (ex_chain_node LeakyReLU 2 1 3 11 12)))
            (obj_sigmoid (ex_sigmoid_Q (ex_chain_node Sigmoid 3 2 4 16 13)))
            (set_output_layer 2 (ex_pred 8 2))
            (d_leaky_relu_scalar (1 # 10))
            (λ x : Q, ((x + 1) * (1 - (x + 1)))%Q) Qmult Qmult
            eq_refl eq_refl I eq_refl eq_refl _
            eq_refl eq_refl I eq_refl eq_refl _
            _ _ _ _ _ _ _ _ _);
    first [ discriminate | by eexists | by eexists _, _
          | by exists d_leaky_relu_scalar, (1 # 10)%Q, [] ].
Defined.

(** ** From construction to execution *)

Section Construction.

Context {E : Type}.
Variable aimath_sizeof_tensor_params : gmap N (list Z) → aitensor_t → N.
Variable aimath_sizeof_tensor_data : gmap N (list Z) → aitensor_t → N.
Implicit Types (st : state E) (o : object E).

(** X14.  Construction order wires the inner node, and the storage bound
    before construction is the storage its passes work on.  After node [a],
    with all its kernels installed, is initialized on [p] and node [b] is
    initialized on [a], node [a] is wired on both sides.  If the storage of
    the predecessor's result and of [a]'s result was bound before the two
    calls, the forward pass of [a] leaves the activated predecessor result
    in [a]'s result; if the storage of the predecessor's result and of the
    gradient slots of [a] and [b] was bound, the backward pass of [a]
    leaves in [a]'s gradient slot the derivative at the predecessor's
    result times the contents of [b]'s gradient slot. *)
Theorem chain_node_ready ka kb (p a b : ptr) st o_p o_a o_b :
  p ≠ a → p ≠ b → a ≠ b →
  objs st !! p = Some o_p →
  objs st !! a = Some o_a → kernels_installed ka o_a →
  objs st !! b = Some o_b → is_activation kb o_b →
  let xs := load_elems (mem st) (data (result (base_of o_p))) in
  let gs := load_elems (mem st) (data (deltas (base_of o_b))) in
  ∃ st1 st2,
    initializer ka a p st = Some (a, st1) ∧
    initializer kb b a st1 = Some (b, st2) ∧
    node_ready ka st2 a ∧
    (∀ f,
       activates (mem st) o_a f →
       tensor_live (mem st) (result (base_of o_p)) →
       tensor_live (mem st) (result (base_of o_a)) →
       result_after (layer_forward ka a st2) a = Some (f <$> xs)) ∧
    (∀ d mul jp jd,
       differentiates (mem st) o_a d mul →
       tensor_live (mem st) (result (base_of o_p)) →
       tensor_live (mem st) (deltas (base_of o_b)) →
       tensor_live (mem st) (deltas (base_of o_a)) →
       data (deltas (base_of o_a)) ≠ data (deltas (base_of o_b)) →
       deltas_after
         (layer_backward aimath_sizeof_tensor_params
            aimath_sizeof_tensor_data ka jp jd a st2) a
       = Some (zip_with mul (d <$> xs) gs)).
Proof.
  intros Hpa Hpb Hab Hp Ha Hka Hb Hkb. cbv zeta.
  pose proof (kernels_installed_activation _ _ Hka) as Hact.
  destruct (initializer_eq ka a p st o_a o_p) as (da & Hda & ->); try done.
  set (a1 := map_base (init_base ka da a p (result (base_of o_p))) o_a).
  set (p1 := map_base (set_output_layer a) o_p).
  destruct (initializer_eq kb b a
              {| objs := <[a := a1]> (<[p := p1]> (objs st));
                 mem := mem st |} o_b a1) as (db & Hdb & H2); try done.
  { cbn. by rewrite !lookup_insert_ne. }
  { cbn. by rewrite lookup_insert_eq. }
  eexists _, _. split; [reflexivity|]. split; [exact H2|].
  set (a2 := map_base (set_output_layer b) a1).
  set (b2 := map_base (init_base kb db b a (result (base_of a1))) o_b).
  set (st2 := {| objs := <[b := b2]> (<[a := a2]>
                           (<[a := a1]> (<[p := p1]> (objs st))));
                 mem := mem st |}).
  match goal with |- node_ready ka ?s a ∧ _ => change s with st2 end.
  assert (Hba : load_base a st2 = Some (base_of a2)).
  { unfold load_base, st2; cbn [objs].
    by rewrite (lookup_insert_ne _ b a), lookup_insert_eq. }
  assert (Hcfg : objs st2 !! layer_configuration (base_of a2) = Some a2).
  { subst a2 a1. rewrite !base_of_map_base. cbn [objs st2].
    cbn [set_output_layer init_base layer_configuration].
    by rewrite (lookup_insert_ne _ b a), lookup_insert_eq. }
  assert (Hinl : load_base (input_layer (base_of a2)) st2
                 = Some (base_of p1)).
  { subst a2 a1. rewrite !base_of_map_base. unfold load_base; cbn [objs st2].
    cbn [set_output_layer init_base input_layer].
    rewrite (lookup_insert_ne _ b p), !(lookup_insert_ne _ a p) by done.
    by rewrite lookup_insert_eq. }
  assert (Houtl : load_base (output_layer (base_of a2)) st2
                  = Some (base_of b2)).
  { subst a2 a1. rewrite !base_of_map_base. unfold load_base; cbn [objs st2].
    cbn [set_output_layer output_layer].
    by rewrite lookup_insert_eq. }
  assert (Hk2 : kernels_installed ka a2).
  { subst a2 a1. by rewrite !kernels_installed_map_base. }
  assert (Hact2 : ∀ m f, activates m o_a f → activates m a2 f).
  { intros m f. subst a2 a1. by rewrite !activates_map_base. }
  assert (Hdiff2 : ∀ m d mul,
            differentiates m o_a d mul → differentiates m a2 d mul).
  { intros m d mul. subst a2 a1. by rewrite !differentiates_map_base. }
  assert (Hra2 : data (result (base_of a2)) = data (result (base_of o_a))).
  { subst a2 a1. by rewrite !base_of_map_base. }
  assert (Hda2 : data (deltas (base_of a2)) = data (deltas (base_of o_a))).
  { subst a2 a1. by rewrite !base_of_map_base. }
  assert (Hrp1 : result (base_of p1) = result (base_of o_p)).
  { subst p1. by rewrite base_of_map_base. }
  assert (Hdb2 : data (deltas (base_of b2)) = data (deltas (base_of o_b))).
  { subst b2. by rewrite base_of_map_base. }
  assert (Hmem : mem st2 = mem st) by reflexivity.
  clearbody st2 a2 b2 p1 a1.
  split.
  { exists (base_of a2), a2, (base_of p1), (base_of b2). by repeat split. }
  split.
  - intros f Hf Hx Hr.
    rewrite (layer_forward_store ka a st2 (base_of a2) a2 (base_of p1) f
               Hba Hcfg (kernels_installed_activation _ _ Hk2) Hinl).
    2: { rewrite Hmem. by apply Hact2. }
    unfold result_after; cbn [mbind option_bind].
    change (load_base a (overwrite _ _ st2)) with (load_base a st2).
    rewrite Hba; cbn [mbind option_bind overwrite set_mem mem]. f_equal.
    rewrite Hmem, Hra2, Hrp1. by apply load_elems_store_eq.
  - intros d mul jp jd Hd Hx Hg Hdl Hne.
    rewrite (layer_backward_store _ _ ka jp jd a st2 (base_of a2) a2
               (base_of p1) (base_of b2) d mul Hba Hcfg
               (kernels_installed_activation _ _ Hk2) Houtl Hinl).
    2: { rewrite Hmem. by apply Hdiff2. }
    2: { by rewrite Hmem, Hrp1. }
    2: { unfold tensor_live. by rewrite Hmem, Hdb2. }
    2: { unfold tensor_live. by rewrite Hmem, Hda2. }
    2: { by rewrite Hda2, Hdb2. }
    unfold deltas_after; cbn [mbind option_bind].
    change (load_base a (overwrite _ _ st2)) with (load_base a st2).
    rewrite Hba; cbn [mbind option_bind overwrite set_mem mem]. f_equal.
    rewrite Hmem, Hda2, Hrp1, Hdb2. by apply load_elems_store_eq.
Qed.

End Construction.

(** X14 on the uninitialized chain of three structs with bound storage:
    x = [-2, 0, 3], slope 0.1, and [1, 1, 1] in the storage of the gradient
    slot of node 3. *)
Lemma chain_node_ready_witness :
  ∃ st1 st2,
    initializer LeakyReLU 2 1 (ex_bound_chain [1; 1; 1]%Q) = Some (2%N, st1) ∧
    initializer Sigmoid 3 2 st1 = Some (3%N, st2) ∧
    node_ready LeakyReLU st2 2 ∧
    result_after (layer_forward LeakyReLU 2 st2) 2
    = Some (leaky_relu_scalar (1 # 10) <$> [-2; 0; 3]%Q) ∧
    deltas_after
      (layer_backward ex_sizeof_tensor_params ex_sizeof_tensor_data
         LeakyReLU [] [] 2 st2) 2
    = Some (zip_with Qmult (d_leaky_relu_scalar (1 # 10) <$> [-2; 0; 3]%Q)
              [1; 1; 1]%Q).
Proof.
  destruct (chain_node_ready ex_sizeof_tensor_params ex_sizeof_tensor_data
              LeakyReLU Sigmoid 1 2 3 (ex_bound_chain [1; 1; 1]%Q)
              (obj_layer (ex_pred 8 2)) (ex_bound_node LeakyReLU)
              ex_bound_successor)
    as (st1 & st2 & H1 & H2 & Hready & Hfwd & Hbwd);
    [ first [ discriminate | reflexivity | exact I
            | by repeat split; eexists ] .. | ].
  exists st1, st2.
  do 3 (split; [assumption|]).
  split.
  - apply (Hfwd (leaky_relu_scalar (1 # 10)));
      [ exists leaky_relu_scalar, (1 # 10)%Q, [];
        split; [reflexivity|split; reflexivity]
      | eexists; reflexivity .. ].
  - apply (Hbwd (d_leaky_relu_scalar (1 # 10)) Qmult [] []);
      [ exists d_leaky_relu_scalar, (1 # 10)%Q, [];
        split; [reflexivity|split; [reflexivity|split; reflexivity]]
      | eexists; reflexivity | eexists; reflexivity | eexists; reflexivity
      | discriminate ].
Defined.
